(** * be0: the asynchronous task and event subsystem

  A shallow embedding of
    - [internal/events/events.go]   (package [events]: the event bus),
    - [internal/tasks/server.go]    (package [tasks]: the worker server;
                                     package [rate]: the queue rate limiter),
    - [internal/tasks/scheduler.go] (package [tasks]: scheduler, cron option),
  together with the statements the specification makes about them. *)

From stdpp Require Import gmap strings list fin_maps pretty sorting.
From Stdlib Require Import ZArith Lia Ascii.

Open Scope Z_scope.

(** ** Go basics shared by the packages *)

(** [int64] arithmetic wraps around. *)
Definition wrap64 (z : Z) : Z := (z + 2 ^ 63) `mod` 2 ^ 64 - 2 ^ 63.

(** [time.Duration] is an [int64] count of nanoseconds. *)
Definition Nanosecond : Z := 1.
Definition Second : Z := 1000000000.
Definition Minute : Z := 60 * Second.
Definition Hour : Z := 60 * Minute.

(** [int64(d.Seconds())]: the duration in seconds, truncated towards zero.
  [Seconds] goes through [float64]; the truncation below is what it yields
  for every whole number of seconds and for every duration shorter than
  2^24 seconds. *)
Definition Duration_Seconds_int64 (d : Z) : Z := d `quot` Second.

(** A Go [error] value, by its message; [None] is [nil]. *)
Definition error := option string.

(** Result of a call that either yields a value or fails. *)
Inductive result (A : Type) : Type :=
| Ok (a : A)
| Err (msg : string).
Arguments Ok {A} a.
Arguments Err {A} msg.

(** [fmt.Sprintf] for the verbs the subsystem uses ([%s], [%v], [%w], [%d]);
    the arguments come already rendered. *)
Fixpoint Sprintf (format : string) (args : list string) : string :=
  match format with
  | EmptyString => EmptyString
  | String c tl =>
      match tl with
      | EmptyString => String c EmptyString
      | String v rest =>
          if Ascii.eqb c "%"%char then
            if Ascii.eqb v "s"%char || Ascii.eqb v "v"%char
               || Ascii.eqb v "w"%char || Ascii.eqb v "d"%char
            then match args with
                 | a :: args' => a +:+ Sprintf rest args'
                 | [] => String c (String "!" (String v ("(MISSING)" +:+ Sprintf rest [])))
                 end
            else String c (String v (Sprintf rest args))
          else String c (Sprintf tl args)
      end
  end.

(** Text without any [%]: [Sprintf] has nothing to expand in it. *)
Fixpoint noVerb (s : string) : bool :=
  match s with
  | EmptyString => true
  | String c tl => negb (Ascii.eqb c "%"%char) && noVerb tl
  end.

(** ** Package [logger] (logger.go) *)

Module Logger.

Record Logger := New {
  serviceName : string
}.

(** One printed line. [formatMessage] also prints an emoji, the wall-clock
    time and the caller's file and line; a line is kept here by its level,
    service name and message. *)
Record Line := mkLine {
  level : string;
  service : string;
  text : string
}.

Definition Info (l : Logger) (msg : string) (args : list string)
    (out : list Line) : list Line :=
  out ++ [mkLine "INFO" (serviceName l) (Sprintf msg args)].

(** [Error] appends [err] to the arguments, prints, and returns the wrapped
    error. *)
Definition Error (l : Logger) (msg : string) (err : string) (args : list string)
    (out : list Line) : list Line * string :=
  (out ++ [mkLine "ERROR" (serviceName l) (Sprintf msg (args ++ [err]))],
   Sprintf "%s: %w" [msg; err]).

End Logger.

(** ** The Redis server, as far as the rate limiter talks to it *)

Module Redis.

(** A key holding a sorted set: each member has one score; the key may
    carry a time to live (the [time.Duration] given to [Expire]). *)
Record zkey := ZKey {
  members : gmap Z Z;      (* member |-> score *)
  ttl : option Z
}.

(** The client handle with the database behind it. [online] tells whether
    a round trip to the server succeeds. *)
Record Client := mkClient {
  online : bool;
  db : gmap string zkey
}.

(** The commands [Allow] queues on its pipeline. *)
Inductive Cmder :=
| ZRemRangeByScore (key : string) (min max : Z)
| ZCard (key : string)
| ZAdd (key : string) (score member : Z)
| Expire (key : string) (expiration : Z).

Inductive Reply :=
| IntCmd (val : Z)
| BoolCmd (val : bool).

Definition zmembers (key : string) (d : gmap string zkey) : gmap Z Z :=
  match d !! key with
  | Some e => members e
  | None => ∅
  end.

Definition key_ttl (key : string) (d : gmap string zkey) : option Z :=
  match d !! key with
  | Some e => ttl e
  | None => None
  end.

(** Entries whose score lies outside [min, max] (both ends inclusive). *)
Definition outside (min max : Z) (zs : gmap Z Z) : gmap Z Z :=
  filter (λ p : Z * Z, ¬ (min ≤ p.2 ≤ max)) zs.

(** One command against the database.
    - ZREMRANGEBYSCORE removes the members with min <= score <= max and
      drops the key when the set becomes empty;
    - ZCARD is the number of members (0 for a missing key);
    - ZADD adds the member or updates its score, creating the key;
    - EXPIRE sets the time to live of an existing key; a time to live that
      is not positive deletes the key. *)
Definition exec1 (c : Cmder) (d : gmap string zkey) : gmap string zkey * Reply :=
  match c with
  | ZRemRangeByScore key min max =>
      match d !! key with
      | None => (d, IntCmd 0)
      | Some e =>
          let keep := outside min max (members e) in
          let removed := Z.of_nat (size (members e)) - Z.of_nat (size keep) in
          (if decide (keep = ∅) then delete key d
           else <[key := ZKey keep (ttl e)]> d,
           IntCmd removed)
      end
  | ZCard key => (d, IntCmd (Z.of_nat (size (zmembers key d))))
  | ZAdd key score member =>
      let e := default (ZKey ∅ None) (d !! key) in
      (<[key := ZKey (<[member := score]> (members e)) (ttl e)]> d,
       IntCmd (match members e !! member with Some _ => 0 | None => 1 end))
  | Expire key expiration =>
      match d !! key with
      | None => (d, BoolCmd false)
      | Some e =>
          (if decide (expiration ≤ 0) then delete key d
           else <[key := ZKey (members e) (Some expiration)]> d,
           BoolCmd true)
      end
  end.

(** The queued commands run in order, one reply each. *)
Fixpoint run (cmds : list Cmder) (d : gmap string zkey)
  : gmap string zkey * list Reply :=
  match cmds with
  | [] => (d, [])
  | c :: rest =>
      let '(d1, r) := exec1 c d in
      let '(d2, rs) := run rest d1 in
      (d2, r :: rs)
  end.

(** [pipe.Exec]: one round trip; fails as a whole when the server cannot
    be reached. *)
Definition Exec (cmds : list Cmder) (c : Client) : Client * result (list Reply) :=
  if online c then
    let '(d, rs) := run cmds (db c) in (mkClient true d, Ok rs)
  else (c, Err "connection refused").

End Redis.

(** ** Package [rate]: the queue rate limiter (server.go) *)

Module Rate.
Import Redis.

Record RateLimit := mkRateLimit {
  Window : Z;      (* time.Duration *)
  MaxJobs : Z      (* int *)
}.

(** The Go field [RateLimit] of [QueueConfig] is spelled [Limit] here, the
    name being taken by its type. *)
Record QueueConfig := mkQueueConfig {
  Name : string;
  Limit : RateLimit
}.

(** [QueueRateLimiter]: the configuration; the Redis client it points to
    is threaded through [Allow] as state. *)
Record QueueRateLimiter := NewQueueRateLimiter {
  config : QueueConfig
}.

(** What a call of [Allow] does: it returns its pair, or panics. *)
Inductive outcome :=
| Return (allowed : bool) (err : error)
| Panic (msg : string).

(** [fmt.Sprintf("queue_rate_limit:%s:%s", qrl.config.Name, identifier)] *)
Definition limiterKey (qrl : QueueRateLimiter) (identifier : string) : string :=
  "queue_rate_limit:" +:+ Name (config qrl) +:+ ":" +:+ identifier.

Definition windowStart (qrl : QueueRateLimiter) (now : Z) : Z :=
  wrap64 (now - Duration_Seconds_int64 (Window (Limit (config qrl)))).

(** The four commands of the pipeline, in the order they are queued. *)
Definition pipeline (qrl : QueueRateLimiter) (now : Z) (identifier : string)
  : list Cmder :=
  let key := limiterKey qrl identifier in
  [ ZRemRangeByScore key 0 (windowStart qrl now);
    ZCard key;
    ZAdd key now now;
    Expire key (wrap64 (Window (Limit (config qrl)) * 2)) ].

(** [Allow]; [now] is [time.Now().Unix()]. *)
Definition Allow (qrl : QueueRateLimiter) (now : Z) (identifier : string)
    (c : Client) : Client * outcome :=
  match Exec (pipeline qrl now identifier) c with
  | (c', Err e) => (c', Return false (Some ("redis pipeline error: " +:+ e)))
  | (c', Ok results) =>
      match results !! 1%nat with
      | Some (IntCmd count) =>
          (c', Return (bool_decide (count ≤ MaxJobs (Limit (config qrl)))) None)
      | Some (BoolCmd _) => (c', Panic "interface conversion")
      | None => (c', Panic "index out of range")
      end
  end.

(** Consecutive calls, each at its own clock reading. *)
Fixpoint AllowAll (qrl : QueueRateLimiter) (identifier : string)
    (clock : list Z) (c : Client) : Client * list outcome :=
  match clock with
  | [] => (c, [])
  | now :: later =>
      let '(c1, o) := Allow qrl now identifier c in
      let '(c2, os) := AllowAll qrl identifier later c1 in
      (c2, o :: os)
  end.

(** The entries of the identifier's set that survive the pruning step. *)
Definition kept (qrl : QueueRateLimiter) (now : Z) (identifier : string)
    (c : Client) : gmap Z Z :=
  outside 0 (windowStart qrl now) (zmembers (limiterKey qrl identifier) (db c)).

(** The duration handed to [Expire]. *)
Definition expiry (qrl : QueueRateLimiter) : Z :=
  wrap64 (Window (Limit (config qrl)) * 2).

(** Sample limiters and a reachable, empty store. *)
Definition perSecond3 : QueueRateLimiter :=
  NewQueueRateLimiter (mkQueueConfig "mail" (mkRateLimit (1 * Second) 3)).
Definition perTenSeconds3 : QueueRateLimiter :=
  NewQueueRateLimiter (mkQueueConfig "mail" (mkRateLimit (10 * Second) 3)).
Definition emptyStore : Client := mkClient true ∅.

End Rate.


(** ** Package [events]: the event bus (events.go) *)

Module Events.

(** A dynamic value other than [nil]. *)
Inductive value :=
| Int (z : Z)
| Str (s : string)
| Error (msg : string).

(** [interface{}]: [None] is [nil]. *)
Definition any := option value.

(** The [%v] rendering. *)
Definition fmt_v (v : value) : string :=
  match v with
  | Int z => pretty z
  | Str s => s
  | Error msg => msg
  end.

(** What calling a handler on a payload does: it returns, it panics (and
    [recover()] then yields [r], which is never [nil] from Go 1.21 on; the
    image is built with Go 1.24), or it never comes back. *)
Inductive behaviour :=
| Returns
| Panics (r : value)
| Blocks.

(** [type EventHandler func(interface{})]. [fn] identifies the function
    value; [call] is what running it does. *)
Record EventHandler := mkHandler {
  fn : nat;
  call : any → behaviour
}.

(** [EventBus]: the registry. The [sync.RWMutex] is held only while the map
    is read or written and is released before [On] and [Emit] go on. *)
Record EventBus := mkBus {
  handlers : gmap string (list EventHandler)
}.

Definition log : Logger.Logger := Logger.New "EVENTS".

Definition NewEventBus : EventBus := mkBus ∅.

(** How a function call ends on the goroutine that made it. *)
Inductive completion :=
| Normal
| Panicking (r : value)
| Blocking.

Inductive status :=
| Ready       (* created by a go statement, not yet run *)
| Blocked     (* its handler never comes back *)
| Done.

(** A goroutine started by [Emit]: the function literal applied to one
    handler, with the payload it captured. *)
Record goroutine := mkG {
  handler : EventHandler;
  data : any;
  state : status
}.

(** The process: what was printed, the goroutines started by [Emit], the
    handler invocations made so far (function, payload), and whether a
    panic went unrecovered and killed the process. *)
Record Runtime := mkRuntime {
  stdout : list Logger.Line;
  goroutines : list goroutine;
  calls : list (nat * any);
  crashed : bool
}.

Definition boot : Runtime := mkRuntime [] [] [] false.

(** The handlers registered for an event; a missing key reads as the nil
    slice. *)
Definition registered (bus : EventBus) (event : string) : list EventHandler :=
  default [] (handlers bus !! event).

(** [On] *)
Definition On (event : string) (h : EventHandler) (bus : EventBus) (rt : Runtime)
    : EventBus * Runtime :=
  (mkBus (<[event := registered bus event ++ [h]]> (handlers bus)),
   mkRuntime (Logger.Info log "Registered handler for event: %s" [event] (stdout rt))
             (goroutines rt) (calls rt) (crashed rt)).

(** The [go] statement in the loop of [Emit]. *)
Definition spawn (payload : any) (rt : Runtime) (h : EventHandler) : Runtime :=
  mkRuntime (stdout rt) (goroutines rt ++ [mkG h payload Ready]) (calls rt)
            (crashed rt).

(** [Emit]; the second component is how the call ends for its caller. *)
Definition Emit (event : string) (payload : any) (bus : EventBus) (rt : Runtime)
    : Runtime * completion :=
  match handlers bus !! event with
  | None => (rt, Normal)
  | Some hs =>
      let rt1 := mkRuntime (Logger.Info log "Emitting event: %s" [event] (stdout rt))
                           (goroutines rt) (calls rt) (crashed rt) in
      (foldl (spawn payload) rt1 hs, Normal)
  end.

(** [h(data)] *)
Definition invoke (h : EventHandler) (payload : any) (rt : Runtime)
    : Runtime * completion :=
  (mkRuntime (stdout rt) (goroutines rt) (calls rt ++ [(fn h, payload)]) (crashed rt),
   match call h payload with
   | Returns => Normal
   | Panics r => Panicking r
   | Blocks => Blocking
   end).

(** [recover()]: the panic value, [nil] when the goroutine is not panicking. *)
Definition recover (c : completion) : any :=
  match c with
  | Panicking r => Some r
  | _ => None
  end.

(** The deferred function of the literal. *)
Definition deferred (c : completion) (rt : Runtime) : Runtime * completion :=
  match recover c with
  | Some r =>
      let '(out, err) :=
        Logger.Error log "Panic in event handler: %v"
          (Sprintf "panic: %v" [fmt_v r]) [] (stdout rt) in
      (mkRuntime out (goroutines rt) (calls rt) (crashed rt), Normal)
  | None => (rt, c)
  end.

(** The function literal: the handler call under the deferred recovery. *)
Definition body (h : EventHandler) (payload : any) (rt : Runtime)
    : Runtime * completion :=
  let '(rt1, c) := invoke h payload rt in deferred c rt1.

Definition setState (i : nat) (s : status) (gs : list goroutine) : list goroutine :=
  match gs !! i with
  | Some g => <[i := mkG (handler g) (data g) s]> gs
  | None => gs
  end.

(** The scheduler runs goroutine [i], which must be ready in a live
    process. A panic that leaves the goroutine's function kills the
    process. *)
Definition run_goroutine (i : nat) (rt : Runtime) : option Runtime :=
  if crashed rt then None else
  match goroutines rt !! i with
  | Some (mkG h payload Ready) =>
      let '(rt1, c) := body h payload rt in
      Some match c with
           | Normal =>
               mkRuntime (stdout rt1) (setState i Done (goroutines rt1)) (calls rt1) false
           | Blocking =>
               mkRuntime (stdout rt1) (setState i Blocked (goroutines rt1)) (calls rt1) false
           | Panicking _ =>
               mkRuntime (stdout rt1) (goroutines rt1) (calls rt1) true
           end
  | _ => None
  end.

(** One scheduling step, and runs of them. *)
Inductive step : Runtime → Runtime → Prop :=
| step_run i rt rt' : run_goroutine i rt = Some rt' → step rt rt'.

Inductive steps : Runtime → Runtime → Prop :=
| steps_refl rt : steps rt rt
| steps_step rt1 rt2 rt3 : step rt1 rt2 → steps rt2 rt3 → steps rt1 rt3.

(** Buses as the package hands them out: [NewEventBus], then calls of [On]. *)
Inductive built : EventBus → Prop :=
| built_new : built NewEventBus
| built_on event h bus rt : built bus → built (On event h bus rt).1.

Definition isReady (g : goroutine) : bool :=
  match state g with Ready => true | _ => false end.

(** Number of invocations of the handler [k] made so far. *)
Definition invocations (k : nat) (rt : Runtime) : nat :=
  length (filter (λ c : nat * any, c.1 = k) (calls rt)).

(** Number of goroutines holding the handler [k] that have not run yet. *)
Definition waiting (k : nat) (rt : Runtime) : nat :=
  length (filter (λ g, fn (handler g) = k ∧ isReady g = true) (goroutines rt)).

(** Number of registrations of the handler [k] in a handler list. *)
Definition registrations (k : nat) (hs : list EventHandler) : nat :=
  length (filter (λ h, fn h = k) hs).

(** No goroutine is left to run. *)
Definition quiescent (rt : Runtime) : Prop :=
  ∀ g, g ∈ goroutines rt → isReady g = false.

(** Runs every ready goroutine once, in the order of creation. *)
Fixpoint run_each (js : list nat) (rt : Runtime) : Runtime :=
  match js with
  | [] => rt
  | j :: rest =>
      match run_goroutine j rt with
      | Some rt' => run_each rest rt'
      | None => run_each rest rt
      end
  end.

Definition run_all (rt : Runtime) : Runtime :=
  run_each (seq 0 (length (goroutines rt))) rt.

(** The line the deferred function prints for the panic value [r]. *)
Definition panicLine (r : value) : Logger.Line :=
  Logger.mkLine "ERROR" "EVENTS" ("Panic in event handler: panic: " +:+ fmt_v r).

(** The state a ready goroutine [i], holding [h] and [payload], leaves
    behind when it is run. *)
Definition ran (i : nat) (h : EventHandler) (payload : any) (rt : Runtime)
    : Runtime :=
  mkRuntime
    (stdout rt ++ match call h payload with Panics r => [panicLine r] | _ => [] end)
    (<[i := mkG h payload
              match call h payload with Blocks => Blocked | _ => Done end]>
       (goroutines rt))
    (calls rt ++ [(fn h, payload)])
    false.

(** Registrations made one after another. *)
Definition OnAll (regs : list (string * EventHandler)) (bus : EventBus) (rt : Runtime)
    : EventBus * Runtime :=
  foldl (λ st r, On r.1 r.2 st.1 st.2) (bus, rt) regs.

(** Emits made one after another on the same bus. *)
Definition EmitAll (evs : list (string * any)) (bus : EventBus) (rt : Runtime)
    : Runtime :=
  foldl (λ rt ev, (Emit ev.1 ev.2 bus rt).1) rt evs.

(** The invocations still to come: one per goroutine that has not run yet,
    with the handler and the payload it holds. *)
Definition pendingCalls (rt : Runtime) : list (nat * any) :=
  (λ g, (fn (handler g), data g)) <$> filter (λ g, isReady g = true) (goroutines rt).

(** Whether the goroutine's handler panics on the payload it was given. *)
Definition panics (g : goroutine) : bool :=
  match call (handler g) (data g) with
  | Panics _ => true
  | _ => false
  end.

(** Number of ERROR lines printed so far. *)
Definition errorLines (rt : Runtime) : nat :=
  length (filter (λ l, Logger.level l = "ERROR") (stdout rt)).

(** Number of goroutines still to run whose handler will panic. *)
Definition panicsWaiting (rt : Runtime) : nat :=
  length (filter (λ g, isReady g = true ∧ panics g = true) (goroutines rt)).

End Events.

(** ** The libraries the task packages stand on *)

(** [github.com/robfig/cron/v3]: the standard parser and the schedules it
    yields. The library is not part of the repository; the embedding takes
    it as an interface. Times are nanoseconds since the epoch. *)
Class Cron := {
  Schedule : Type;
  ParseStandard : string → result Schedule;
  Next : Schedule → Z → Z
}.

Module Asynq.

Record RedisClientOpt := mkRedisClientOpt {
  Addr : string;
  Username : string;
  Password : string;
  DB : Z
}.

(** The fields of [asynq.Config] the repository sets. *)
Record Config := mkConfig {
  Concurrency : Z;
  Queues : gmap string Z;
  StrictPriority : bool
}.

Record Server := NewServer {
  redis : RedisClientOpt;
  cfg : Config
}.

(** Options are kept by their [String()] rendering. *)
Record Task := NewTask {
  typename : string;
  payload : list Byte.byte;
  opts : list string
}.

(** The fields of [asynq.TaskInfo] the repository touches. *)
Record TaskInfo := mkTaskInfo {
  ID : string;
  Queue : string;
  Type_ : string;
  Payload : list Byte.byte;
  NextProcessAt : Z
}.

Record Entry := mkEntry {
  entryID : string;
  cronspec : string;
  task : Task
}.

(** [asynq.Scheduler]: the registered entries, and the identifiers the
    process draws ([uuid i] is the i-th identifier, [minted] counts those
    drawn so far). *)
Record Scheduler := mkScheduler {
  entries : list Entry;
  uuid : nat → string;
  minted : nat
}.

(** [Scheduler.Register]: the spec goes through the cron parser; a spec
    that does not parse is refused with the parser's error, otherwise the
    job is filed under a fresh identifier, which is returned. *)
Definition Register `{Cron} (s : Scheduler) (spec : string) (t : Task)
    : Scheduler * result string :=
  match ParseStandard spec with
  | Err e => (s, Err e)
  | Ok _ =>
      let id := uuid s (minted s) in
      (mkScheduler (entries s ++ [mkEntry id spec t]) (uuid s) (S (minted s)),
       Ok id)
  end.

(** Queue names by descending priority. *)
Fixpoint insertByPriority (q : string * Z) (sorted : list (string * Z))
    : list (string * Z) :=
  match sorted with
  | [] => [q]
  | q' :: rest =>
      if q'.2 <=? q.2 then q :: q' :: rest else q' :: insertByPriority q rest
  end.

Definition sortByPriority (qs : gmap string Z) : list string :=
  (foldr insertByPriority [] (map_to_list qs)).*1.

(** The order in which the processor polls the queues: by priority when
    [StrictPriority] is set, otherwise in a weighted random order
    ([shuffled]). *)
Definition queues (c : Config) (shuffled : list string) : list string :=
  if StrictPriority c then sortByPriority (Queues c) else shuffled.

(** The queue the next task is taken from: the first polled queue that has
    a ready task. [ready q] is the number of ready tasks in [q]. *)
Definition dequeue (c : Config) (shuffled : list string) (ready : string → nat)
    : option string :=
  List.find (λ q, bool_decide (0 < ready q)%nat) (queues c shuffled).

End Asynq.

(** ** Package [tasks]: the worker server (server.go) *)

Module TaskServer.

Definition QueueCritical : string := "critical".
Definition QueueDefault : string := "default".
Definition QueueLow : string := "low".

(** [TaskHandler], by its logger. *)
Record TaskHandler := mkTaskHandler {
  handlerLogger : Logger.Logger
}.

Record Server := mkServer {
  server : Asynq.Server;
  handler : TaskHandler;
  logger : Logger.Logger
}.

(** [NewServer] *)
Definition NewServer (redisAddr username password : string) (db : Z)
    (handler : TaskHandler) (logger : Logger.Logger) : Server :=
  let server :=
    Asynq.NewServer
      (Asynq.mkRedisClientOpt redisAddr username password db)
      (Asynq.mkConfig
         10
         (<[QueueCritical := 6]> (<[QueueDefault := 3]> (<[QueueLow := 1]> ∅)))
         true) in
  mkServer server handler logger.

End TaskServer.

(** ** Package [tasks]: the scheduler and the cron option (scheduler.go) *)

Module TaskScheduler.

Record Scheduler := mkScheduler {
  scheduler : Asynq.Scheduler;
  logger : Logger.Logger
}.

(** [RegisterCustomTask]: the new scheduler, what is printed, and the
    returned [error]. *)
Definition RegisterCustomTask `{Cron} (s : Scheduler) (spec taskType : string)
    (payload : list Byte.byte) (opts : list string) (out : list Logger.Line)
    : Scheduler * list Logger.Line * error :=
  match Asynq.Register (scheduler s) spec (Asynq.NewTask taskType payload opts) with
  | (sch, Err err) =>
      (mkScheduler sch (logger s), out,
       Some (Sprintf "failed to register custom task: %w" [err]))
  | (sch, Ok entryID) =>
      (mkScheduler sch (logger s),
       Logger.Info (logger s) "registered custom task %s %s %s"
         [taskType; spec; entryID] out,
       None)
  end.

Record cronSchedule := CronSchedule {
  expr : string
}.

Definition cronSchedule_String (s : cronSchedule) : string :=
  Sprintf "cron=%s" [expr s].

Definition cronSchedule_Value (s : cronSchedule) : string := expr s.

(** [cronSchedule.Apply]; [now] is the reading of [time.Now()] made on the
    branch taken. *)
Definition Apply `{Cron} (s : cronSchedule) (now : Z) (opts : Asynq.TaskInfo)
    : Asynq.TaskInfo :=
  match ParseStandard (expr s) with
  | Err _ =>
      Asynq.mkTaskInfo (Asynq.ID opts) (Asynq.Queue opts) (Asynq.Type_ opts)
        (Asynq.Payload opts) (now + 1 * Hour)
  | Ok schedule =>
      let next := Next schedule now in
      Asynq.mkTaskInfo (Asynq.ID opts) (Asynq.Queue opts) (Asynq.Type_ opts)
        (Asynq.Payload opts) next
  end.

(** A small parser to run the definitions on: it knows the descriptors
    [@hourly] and [@daily] (a schedule is its period in nanoseconds, firing
    on the multiples of the period) and refuses everything else. *)
#[local] Instance descriptorsOnly : Cron := {|
  Schedule := Z;
  ParseStandard spec :=
    if String.eqb spec "@hourly" then Ok Hour
    else if String.eqb spec "@daily" then Ok (24 * Hour)
    else Err ("unrecognized descriptor: " +:+ spec);
  Next period now := (now `div` period + 1) * period
|}.

Definition sampleScheduler : Scheduler :=
  mkScheduler (Asynq.mkScheduler [] (λ i, "entry-" +:+ pretty i) 0)
              (Logger.New "scheduler").

Definition sampleInfo : Asynq.TaskInfo :=
  Asynq.mkTaskInfo "t1" "default" "queue:config" [] 0.

(** The arguments of one call of [RegisterCustomTask]. *)
Record Request := mkRequest {
  reqSpec : string;
  reqType : string;
  reqPayload : list Byte.byte;
  reqOpts : list string
}.

(** Calls of [RegisterCustomTask] made one after another; the errors they
    return, in order. *)
Fixpoint RegisterCustomTasks `{Cron} (reqs : list Request) (s : Scheduler)
    (out : list Logger.Line) : Scheduler * list Logger.Line * list error :=
  match reqs with
  | [] => (s, out, [])
  | r :: rest =>
      let '(s1, out1, e) :=
        RegisterCustomTask s (reqSpec r) (reqType r) (reqPayload r) (reqOpts r) out in
      let '(s2, out2, es) := RegisterCustomTasks rest s1 out1 in
      (s2, out2, e :: es)
  end.

(** The entry filed for a request under the identifier drawn as number [i]. *)
Definition filed (s : Scheduler) (i : nat) (q : Request) : Asynq.Entry :=
  Asynq.mkEntry (Asynq.uuid (scheduler s) i) (reqSpec q)
    (Asynq.NewTask (reqType q) (reqPayload q) (reqOpts q)).

Definition parses `{Cron} (spec : string) : bool :=
  match ParseStandard spec with
  | Ok _ => true
  | Err _ => false
  end.

(** The error [RegisterCustomTask] returns for a spec. *)
Definition registrationError `{Cron} (spec : string) : error :=
  match ParseStandard spec with
  | Ok _ => None
  | Err e => Some ("failed to register custom task: " +:+ e)
  end.

End TaskScheduler.

(** ** [strconv.Atoi], as [getEnvAsInt] uses it *)

Module Strconv.

(** The value of a decimal digit. *)
Definition digit (c : ascii) : option Z :=
  let n := Z.of_N (N_of_ascii c) in
  if (48 <=? n) && (n <=? 57) then Some (n - 48) else None.

(** Reads a run of decimal digits into the number it denotes, continuing
    from [acc]; any other character is a syntax error. *)
Fixpoint digits (s : string) (acc : Z) : option Z :=
  match s with
  | EmptyString => Some acc
  | String c tl =>
      match digit c with
      | Some d => digits tl (acc * 10 + d)
      | None => None
      end
  end.

(** The digits after the sign: there must be at least one, and the signed
    value must fit an [int] (64 bits). *)
Definition magnitude (neg : bool) (body : string) : option Z :=
  match body with
  | EmptyString => None
  | _ =>
      match digits body 0 with
      | Some n =>
          let v := if neg then - n else n in
          if (- 2 ^ 63 <=? v) && (v <? 2 ^ 63) then Some v else None
      | None => None
      end
  end.

(** [Atoi]: an optional sign, then decimal digits; [None] stands for a
    non-nil error. *)
Definition Atoi (s : string) : option Z :=
  match s with
  | EmptyString => None
  | String c tl =>
      if Ascii.eqb c "-"%char then magnitude true tl
      else if Ascii.eqb c "+"%char then magnitude false tl
      else magnitude false s
  end.

End Strconv.

(** ** Package [config]: the environment and the Redis section
    (found with logger.go) *)

Module Config.

Record RedisConfig := mkRedisConfig {
  Addr : string;
  Password : string;
  Username : string;
  DB : Z
}.

Record WorkerConfig := mkWorkerConfig {
  Concurrency : Z;
  QueueSize : Z
}.

(** [getEnv]; the environment maps the variables that are set to their
    values ([os.LookupEnv]). *)
Definition getEnv (env : gmap string string) (key defaultValue : string) : string :=
  match env !! key with
  | Some value => value
  | None => defaultValue
  end.

(** [getEnvAsInt] *)
Definition getEnvAsInt (env : gmap string string) (key : string) (defaultValue : Z)
    : Z :=
  match env !! key with
  | Some value =>
      match Strconv.Atoi value with
      | Some intValue => intValue
      | None => defaultValue
      end
  | None => defaultValue
  end.

(** The [Redis] and [Worker] sections of the configuration [Load] builds;
    [%d] prints an [int] in decimal. *)
Definition LoadRedis (env : gmap string string) : RedisConfig :=
  mkRedisConfig
    (Sprintf "%s:%d" [getEnv env "REDIS_HOST" "localhost";
                      pretty (getEnvAsInt env "REDIS_PORT" 6379)])
    (getEnv env "REDIS_PASSWORD" "")
    (getEnv env "REDIS_USERNAME" "")
    (getEnvAsInt env "REDIS_DB" 0).

Definition LoadWorker (env : gmap string string) : WorkerConfig :=
  mkWorkerConfig (getEnvAsInt env "WORKER_CONCURRENCY" 5)
                 (getEnvAsInt env "WORKER_QUEUE_SIZE" 100).

End Config.

(** ** [cmd/main.go]: how the task server is built *)

Module Main.

(** [tasks.NewServer(cfg.Redis.Addr, cfg.Redis.Password, cfg.Redis.Username,
    cfg.Redis.DB, taskHandler, logger)] *)
Definition taskServer (cfg : Config.RedisConfig) (taskHandler : TaskServer.TaskHandler)
    (logger : Logger.Logger) : TaskServer.Server :=
  TaskServer.NewServer (Config.Addr cfg) (Config.Password cfg) (Config.Username cfg)
    (Config.DB cfg) taskHandler logger.

End Main.

(** * Properties *)

(** ** The Redis commands *)

Section RedisFacts.
Import Redis.
Implicit Types (d : gmap string zkey) (zs : gmap Z Z) (key : string).

Lemma wrap64_small z : - 2 ^ 63 ≤ z < 2 ^ 63 → wrap64 z = z.
Proof. intros Hz. unfold wrap64. rewrite Z.mod_small; lia. Qed.

Lemma outside_lookup_Some min max zs m s :
  outside min max zs !! m = Some s ↔ zs !! m = Some s ∧ ¬ (min ≤ s ≤ max).
Proof. unfold outside. by rewrite map_lookup_filter_Some. Qed.

Lemma outside_size min max zs : (size (outside min max zs) ≤ size zs)%nat.
Proof. apply map_subseteq_size, map_filter_subseteq. Qed.

Lemma outside_insert_outside min max zs m s :
  <[m := s]> (outside min max (<[m := s]> (outside min max zs)))
  = <[m := s]> (outside min max zs).
Proof.
  apply map_eq; intros k. destruct (decide (m = k)) as [->|Hne].
  - by rewrite !lookup_insert_eq.
  - rewrite !lookup_insert_ne by done. apply option_eq; intros v.
    rewrite !outside_lookup_Some, lookup_insert_ne by done.
    rewrite outside_lookup_Some. tauto.
Qed.

Lemma zmembers_insert key e d : zmembers key (<[key := e]> d) = members e.
Proof. unfold zmembers. by rewrite lookup_insert_eq. Qed.

Lemma zmembers_delete key d : zmembers key (delete key d) = ∅.
Proof. unfold zmembers. by rewrite lookup_delete_eq. Qed.

Lemma zmembers_ZRemRangeByScore key min max d :
  zmembers key (exec1 (ZRemRangeByScore key min max) d).1
  = outside min max (zmembers key d).
Proof.
  unfold zmembers at 2. simpl. destruct (d !! key) as [e|] eqn:He; simpl.
  - case_decide as Hk.
    + by rewrite zmembers_delete, Hk.
    + by rewrite zmembers_insert.
  - unfold zmembers, outside. rewrite He. by rewrite map_filter_empty.
Qed.

Lemma other_key_ZRemRangeByScore key min max k d :
  k ≠ key → (exec1 (ZRemRangeByScore key min max) d).1 !! k = d !! k.
Proof.
  intros Hk. simpl. repeat case_match; simpl;
    by rewrite ?lookup_delete_ne, ?lookup_insert_ne.
Qed.

End RedisFacts.

(** ** The rate limiter *)

Section AllowFacts.
Import Redis Rate.
Implicit Types (qrl : QueueRateLimiter) (c : Client) (now : Z).

Lemma Allow_offline qrl now identifier c :
  online c = false →
  Allow qrl now identifier c
  = (c, Return false (Some "redis pipeline error: connection refused")).
Proof. intros Hoff. unfold Allow, Exec. by rewrite Hoff. Qed.

(** With the server reachable [Allow] never panics; it reports whether the
    count taken between pruning and adding is at most [MaxJobs], and leaves
    the pruned set with the new entry [now |-> now] under the key, which
    expires after [Window * 2]. *)
Lemma Allow_online qrl now identifier c :
  online c = true →
  ∃ d',
    Allow qrl now identifier c
    = (mkClient true d',
       Return (bool_decide (Z.of_nat (size (kept qrl now identifier c))
                            ≤ MaxJobs (Limit (config qrl)))) None)
    ∧ zmembers (limiterKey qrl identifier) d'
      = (if decide (expiry qrl ≤ 0) then ∅
         else <[now := now]> (kept qrl now identifier c))
    ∧ key_ttl (limiterKey qrl identifier) d'
      = (if decide (expiry qrl ≤ 0) then None else Some (expiry qrl))
    ∧ ∀ k, k ≠ limiterKey qrl identifier → d' !! k = db c !! k.
Proof.
  intros Hon. unfold Allow, Exec, pipeline. rewrite Hon.
  set (key := limiterKey qrl identifier).
  set (ws := windowStart qrl now).
  cbn [run].
  destruct (exec1 (ZRemRangeByScore key 0 ws) (db c)) as [d1 r1] eqn:E1.
  assert (Hz1 : zmembers key d1 = kept qrl now identifier c).
  { change d1 with (d1, r1).1. rewrite <- E1.
    apply zmembers_ZRemRangeByScore. }
  assert (Ho1 : ∀ k, k ≠ key → d1 !! k = db c !! k).
  { intros k Hk. change d1 with (d1, r1).1. rewrite <- E1.
    by apply other_key_ZRemRangeByScore. }
  cbn [exec1]. rewrite Hz1.
  set (e := default (ZKey ∅ None) (d1 !! key)).
  assert (He : members e = kept qrl now identifier c).
  { rewrite <- Hz1. unfold e, zmembers. by destruct (d1 !! key). }
  rewrite lookup_insert_eq. cbn [members ttl].
  fold (expiry qrl). rewrite He.
  eexists. split; [reflexivity|].
  case_decide.
  - split; [apply zmembers_delete|]. split.
    + unfold key_ttl. by rewrite lookup_delete_eq.
    + intros k Hk. by rewrite lookup_delete_ne, lookup_insert_ne, Ho1.
  - split; [by rewrite zmembers_insert|]. split.
    + unfold key_ttl. by rewrite lookup_insert_eq.
    + intros k Hk. by rewrite !lookup_insert_ne, Ho1.
Qed.

(** The set under the identifier's key after one call. *)
Lemma Allow_zmembers qrl now identifier c :
  zmembers (limiterKey qrl identifier) (db (Allow qrl now identifier c).1)
  = if online c then
      if decide (expiry qrl ≤ 0) then ∅
      else <[now := now]> (kept qrl now identifier c)
    else zmembers (limiterKey qrl identifier) (db c).
Proof.
  destruct (online c) eqn:Hon.
  - destruct (Allow_online qrl now identifier c Hon) as (d' & -> & Hz & _).
    exact Hz.
  - by rewrite Allow_offline.
Qed.

Lemma Allow_keeps_link qrl now identifier c :
  online (Allow qrl now identifier c).1 = online c.
Proof.
  destruct (online c) eqn:Hon.
  - by destruct (Allow_online qrl now identifier c Hon) as (d' & -> & _).
  - by rewrite Allow_offline.
Qed.

(** The answer is [true] exactly when the count taken before the new entry
    is added does not exceed [MaxJobs]: a window that already holds
    [MaxJobs] entries admits one more. *)
Lemma Allow_true_iff qrl now identifier c :
  online c = true →
  (Allow qrl now identifier c).2 = Return true None
  ↔ Z.of_nat (size (kept qrl now identifier c)) ≤ MaxJobs (Limit (config qrl)).
Proof.
  intros Hon. destruct (Allow_online qrl now identifier c Hon) as (d' & -> & _).
  simpl. case_bool_decide; split; intros; done.
Qed.

Lemma Allow_admits_full_window qrl now identifier c :
  online c = true →
  Z.of_nat (size (kept qrl now identifier c)) = MaxJobs (Limit (config qrl)) →
  (Allow qrl now identifier c).2 = Return true None.
Proof. intros Hon Hfull. apply Allow_true_iff; [done | lia]. Qed.

End AllowFacts.

Section AllowClaims.
Import Redis Rate.
Implicit Types (qrl : QueueRateLimiter) (c : Client) (now : Z).

(** C1. The specification has [Allow] answer [true] only while the count
    taken before the new entry, plus the new entry, is at most [MaxJobs],
    so that with a window of one second and [MaxJobs = 3] four calls inside
    the window give true, true, true, false. The code compares the count
    taken before the entry is added with [MaxJobs]: the fourth call is
    admitted as well, both when the four calls fall into one second (the
    entries also collapse into one member) and, with a window of ten
    seconds, when they come one second apart (four entries in the window). *)
Theorem Allow_fourth_call_admitted :
  (AllowAll perSecond3 "user-1"
     [1700000000; 1700000000; 1700000000; 1700000000] emptyStore).2
  = [Return true None; Return true None; Return true None; Return true None]
  ∧ (AllowAll perTenSeconds3 "user-1"
       [1700000000; 1700000001; 1700000002; 1700000003] emptyStore).2
    = [Return true None; Return true None; Return true None; Return true None]
  ∧ size (zmembers (limiterKey perTenSeconds3 "user-1")
            (db (AllowAll perTenSeconds3 "user-1"
                   [1700000000; 1700000001; 1700000002; 1700000003]
                   emptyStore).1)) = 4%nat.
Proof. repeat split; vm_compute; reflexivity. Qed.



(** A call twenty seconds after the first, with a window of ten: the old
    entry is gone, the new one is there, the key lives for twenty seconds. *)
Example Allow_prunes_old_entry :
  let c := (AllowAll perTenSeconds3 "user-1" [1700000000; 1700000020] emptyStore).1 in
  map_to_list (zmembers (limiterKey perTenSeconds3 "user-1") (db c))
  = [(1700000020, 1700000020)]
  ∧ key_ttl (limiterKey perTenSeconds3 "user-1") (db c) = Some (20 * Second).
Proof. split; vm_compute; reflexivity. Qed.

(** Calls made in the same second, one after another, leave the set as the
    first of them left it. *)
Lemma AllowAll_same_second qrl now identifier k : ∀ c c1,
  online c1 = online c →
  zmembers (limiterKey qrl identifier) (db c1)
  = zmembers (limiterKey qrl identifier) (db (Allow qrl now identifier c).1) →
  zmembers (limiterKey qrl identifier)
    (db (AllowAll qrl identifier (replicate k now) c1).1)
  = zmembers (limiterKey qrl identifier) (db (Allow qrl now identifier c).1).
Proof.
  induction k as [|k IH]; intros c c1 Hl Hz; [done|].
  cbn [replicate AllowAll].
  destruct (Allow qrl now identifier c1) as [c2 o] eqn:E2.
  destruct (AllowAll qrl identifier (replicate k now) c2) as [c3 os] eqn:E3.
  change c3 with (c3, os).1. rewrite <- E3.
  apply IH.
  - change c2 with (c2, o).1. rewrite <- E2. by rewrite Allow_keeps_link.
  - change c2 with (c2, o).1. rewrite <- E2.
    rewrite (Allow_zmembers qrl now identifier c) in Hz |- *.
    rewrite (Allow_zmembers qrl now identifier c1), Hl.
    destruct (online c); [|done].
    case_decide; [done|]. unfold kept at 1. rewrite Hz.
    apply outside_insert_outside.
Qed.

(** C10. The entry [Allow] adds has the Unix second both as its member and
    as its score. Hence further calls in the same second leave the set
    that the first of them left: they add no entry and the recorded count
    does not grow; two calls in one second add at most one entry between
    them, and every entry present afterwards was there before or is
    [now |-> now]. *)
Theorem Allow_same_second_one_entry qrl now identifier c k :
  let key := limiterKey qrl identifier in
  let first := (Allow qrl now identifier c).1 in
  let last := (AllowAll qrl identifier (replicate k now) first).1 in
  zmembers key (db last) = zmembers key (db first)
  ∧ size (zmembers key (db last)) = size (zmembers key (db first))
  ∧ (size (zmembers key (db last)) ≤ size (zmembers key (db c)) + 1)%nat
  ∧ ∀ m s, zmembers key (db last) !! m = Some s →
           zmembers key (db c) !! m = Some s ∨ (m = now ∧ s = now).
Proof.
  intros key first last.
  assert (Hsame : zmembers key (db last) = zmembers key (db first)).
  { apply AllowAll_same_second; [|done]. apply Allow_keeps_link. }
  rewrite Hsame. repeat split.
  - subst first key. rewrite Allow_zmembers.
    destruct (online c); [|lia]. case_decide.
    + rewrite map_size_empty. lia.
    + pose proof (outside_size 0 (windowStart qrl now)
                    (zmembers (limiterKey qrl identifier) (db c))).
      rewrite map_size_insert. unfold kept. case_match; simpl; lia.
  - intros m s. subst first key. rewrite Allow_zmembers.
    destruct (online c); [|by left]. case_decide; [by rewrite lookup_empty|].
    destruct (decide (now = m)) as [<-|Hne].
    + rewrite lookup_insert_eq. intros [= <-]. by right.
    + rewrite lookup_insert_ne by done. unfold kept.
      rewrite outside_lookup_Some. intros [Hm _]. by left.
Qed.

End AllowClaims.

(** ** The event bus *)

Section EventsFacts.
Import Events.
Implicit Types (bus : EventBus) (rt : Runtime) (h : EventHandler)
  (hs : list EventHandler) (event : string) (payload : any) (k i : nat).

Lemma append_empty_r (s : string) : s +:+ "" = s.
Proof.
  induction s as [|a s IH]; [done|].
  change (String a (s +:+ "") = String a s). by rewrite IH.
Qed.

Lemma registered_On event h bus rt :
  registered (On event h bus rt).1 event = registered bus event ++ [h].
Proof. unfold registered at 1. simpl. by rewrite lookup_insert_eq. Qed.

(** A key of the registry never holds an empty list. *)
Lemma built_nonempty bus event :
  built bus → handlers bus !! event ≠ Some [].
Proof.
  induction 1 as [|event' h bus rt Hb IH]; simpl.
  - by rewrite lookup_empty.
  - destruct (decide (event' = event)) as [->|Hne].
    + rewrite lookup_insert_eq. intros [= Heq]. by destruct (registered bus event).
    + by rewrite lookup_insert_ne.
Qed.

Lemma built_registered_nil bus event :
  built bus → registered bus event = [] → handlers bus !! event = None.
Proof.
  intros Hb Hr. pose proof (built_nonempty bus event Hb) as Hne.
  unfold registered in Hr. destruct (handlers bus !! event); simpl in *; congruence.
Qed.

Lemma foldl_spawn payload hs : ∀ rt,
  foldl (spawn payload) rt hs
  = mkRuntime (stdout rt)
              (goroutines rt ++ ((λ h, mkG h payload Ready) <$> hs))
              (calls rt) (crashed rt).
Proof.
  induction hs as [|h hs IH]; intros rt; simpl.
  - rewrite app_nil_r. by destruct rt.
  - rewrite IH. simpl. by rewrite <- app_assoc.
Qed.

(** What [Emit] does when the event has a handler list. *)
Lemma Emit_Some event payload bus rt hs :
  handlers bus !! event = Some hs →
  Emit event payload bus rt
  = (mkRuntime (stdout rt ++ [Logger.mkLine "INFO" "EVENTS" ("Emitting event: " +:+ event)])
               (goroutines rt ++ ((λ h, mkG h payload Ready) <$> hs))
               (calls rt) (crashed rt),
     Normal).
Proof.
  intros Hhs. unfold Emit. rewrite Hhs, foldl_spawn. unfold Logger.Info. cbn.
  by rewrite append_empty_r.
Qed.

Lemma Emit_None event payload bus rt :
  handlers bus !! event = None → Emit event payload bus rt = (rt, Normal).
Proof. intros Hhs. unfold Emit. by rewrite Hhs. Qed.

(** The function literal never lets a panic out: it ends normally, or not
    at all when the handler blocks. *)
Lemma body_spec h payload rt :
  body h payload rt
  = (mkRuntime
       (stdout rt ++ match call h payload with Panics r => [panicLine r] | _ => [] end)
       (goroutines rt) (calls rt ++ [(fn h, payload)]) (crashed rt),
     match call h payload with Blocks => Blocking | _ => Normal end).
Proof.
  unfold body, invoke, deferred, Logger.Error.
  destruct (call h payload) as [|r|]; cbn.
  - by rewrite app_nil_r.
  - unfold panicLine. by rewrite !append_empty_r.
  - by rewrite app_nil_r.
Qed.

Lemma run_goroutine_ready i h payload rt :
  crashed rt = false →
  goroutines rt !! i = Some (mkG h payload Ready) →
  run_goroutine i rt = Some (ran i h payload rt).
Proof.
  intros Hc Hi. unfold run_goroutine, ran. rewrite Hc, Hi, body_spec.
  unfold setState. cbn [goroutines stdout calls]. rewrite Hi. cbn.
  by destruct (call h payload).
Qed.

Lemma run_goroutine_Some i rt rt' :
  run_goroutine i rt = Some rt' →
  crashed rt = false ∧
  ∃ h payload, goroutines rt !! i = Some (mkG h payload Ready)
               ∧ rt' = ran i h payload rt.
Proof.
  intros Hrun. destruct (crashed rt) eqn:Hc.
  { unfold run_goroutine in Hrun. by rewrite Hc in Hrun. }
  split; [done|].
  destruct (goroutines rt !! i) as [[h payload [| |]]|] eqn:Hi;
    try (unfold run_goroutine in Hrun; rewrite Hc, Hi in Hrun; done).
  exists h, payload. split; [done|].
  rewrite (run_goroutine_ready i h payload rt Hc Hi) in Hrun. congruence.
Qed.

(** *** Counting invocations along a run *)

Lemma step_alive rt rt' : step rt rt' → crashed rt = false ∧ crashed rt' = false.
Proof.
  intros [i rt0 rt1 Hrun].
  destruct (run_goroutine_Some _ _ _ Hrun) as (Hc & h & payload & _ & ->).
  by split.
Qed.

Lemma steps_alive rt rt' : steps rt rt' → crashed rt = false → crashed rt' = false.
Proof.
  induction 1 as [|rt1 rt2 rt3 Hs _ IH]; [done|].
  intros _. apply IH. by destruct (step_alive _ _ Hs).
Qed.

Lemma invocations_ran k i h payload rt :
  invocations k (ran i h payload rt)
  = (invocations k rt + if decide (fn h = k) then 1 else 0)%nat.
Proof.
  unfold invocations, ran. cbn [calls].
  rewrite filter_app, length_app. f_equal.
  rewrite filter_cons, filter_nil. simpl. by case_decide.
Qed.

Lemma waiting_ran k i h payload rt :
  goroutines rt !! i = Some (mkG h payload Ready) →
  (waiting k (ran i h payload rt) + if decide (fn h = k) then 1 else 0)%nat
  = waiting k rt.
Proof.
  intros Hi. unfold waiting, ran. cbn [goroutines].
  pose proof (lookup_lt_Some _ _ _ Hi) as Hlt.
  rewrite insert_take_drop by done.
  rewrite <- (take_drop_middle (goroutines rt) i _ Hi) at 3.
  rewrite !filter_app, !length_app, !filter_cons. simpl.
  rewrite decide_False; last first.
  { intros [_ Hr]. unfold isReady in Hr. simpl in Hr.
    by destruct (call h payload). }
  destruct (decide (fn h = k)) as [Hk|Hk].
  - rewrite decide_True by done. simpl. lia.
  - rewrite decide_False by (intros [? _]; done). lia.
Qed.

(** Every scheduling step moves one invocation from "waiting" to "made". *)
Lemma step_count k rt rt' :
  step rt rt' →
  (invocations k rt' + waiting k rt' = invocations k rt + waiting k rt)%nat.
Proof.
  intros [i rt0 rt1 Hrun].
  destruct (run_goroutine_Some _ _ _ Hrun) as (_ & h & payload & Hi & ->).
  rewrite invocations_ran. pose proof (waiting_ran k i h payload rt0 Hi). lia.
Qed.

Lemma steps_count k rt rt' :
  steps rt rt' →
  (invocations k rt' + waiting k rt' = invocations k rt + waiting k rt)%nat.
Proof.
  induction 1 as [|rt1 rt2 rt3 Hs _ IH]; [done|].
  rewrite IH. by apply step_count.
Qed.

Lemma quiescent_waiting k rt : quiescent rt → waiting k rt = 0%nat.
Proof.
  unfold quiescent, waiting. induction (goroutines rt) as [|g gs IH]; [done|].
  intros Hq. rewrite filter_cons, decide_False.
  - apply IH. intros g' Hg'. apply Hq. by right.
  - intros [_ Hr]. rewrite Hq in Hr; [done | by left].
Qed.

Lemma waiting_spawned k payload hs :
  length (filter (λ g, fn (handler g) = k ∧ isReady g = true)
            ((λ h, mkG h payload Ready) <$> hs))
  = registrations k hs.
Proof.
  unfold registrations. induction hs as [|h hs IH]; [done|].
  rewrite fmap_cons, !filter_cons. simpl.
  destruct (decide (fn h = k)) as [Hk|Hk].
  - rewrite decide_True by done. simpl. by rewrite IH.
  - rewrite decide_False by (intros [? _]; done). done.
Qed.

(** *** Running everything that is ready *)

Lemma run_each_spec js : ∀ rt,
  crashed rt = false →
  steps rt (run_each js rt)
  ∧ ∀ j g, goroutines (run_each js rt) !! j = Some g → isReady g = true →
           (j ∉ js) ∧ goroutines rt !! j = Some g.
Proof.
  induction js as [|j0 js IH]; intros rt Hc; simpl.
  - split; [constructor|]. intros j g Hj _. split; [apply not_elem_of_nil|done].
  - destruct (run_goroutine j0 rt) as [rt1|] eqn:Hrun.
    + destruct (run_goroutine_Some _ _ _ Hrun) as (_ & h & payload & Hj0 & ->).
      destruct (IH (ran j0 h payload rt) eq_refl) as [Hsteps Hready].
      split; [eapply steps_step; [econstructor; exact Hrun | exact Hsteps]|].
      intros j g Hj Hg. destruct (Hready j g Hj Hg) as [Hnotin Hran].
      unfold ran in Hran. cbn [goroutines] in Hran.
      destruct (decide (j0 = j)) as [<-|Hne].
      * rewrite list_lookup_insert_eq in Hran by (by eapply lookup_lt_Some).
        injection Hran as <-. unfold isReady in Hg. simpl in Hg.
        by destruct (call h payload).
      * rewrite list_lookup_insert_ne in Hran by done.
        split; [|done]. rewrite not_elem_of_cons. by split.
    + destruct (IH rt Hc) as [Hsteps Hready].
      split; [done|]. intros j g Hj Hg.
      destruct (Hready j g Hj Hg) as [Hnotin Hrt]. split; [|done].
      rewrite not_elem_of_cons. split; [|done]. intros ->.
      destruct g as [h payload st]. unfold isReady in Hg. simpl in Hg.
      destruct st; try done.
      by rewrite (run_goroutine_ready j0 h payload rt Hc Hrt) in Hrun.
Qed.

(** A live process can always be run until no goroutine is left to run. *)
Lemma run_all_quiescent rt :
  crashed rt = false → steps rt (run_all rt) ∧ quiescent (run_all rt).
Proof.
  intros Hc. unfold run_all.
  destruct (run_each_spec (seq 0 (length (goroutines rt))) rt Hc) as [Hs Hr].
  split; [done|]. intros g Hg.
  destruct (isReady g) eqn:Hready; [|done]. exfalso.
  apply list_elem_of_lookup in Hg as [j Hj].
  destruct (Hr j g Hj Hready) as [Hnotin Hrt]. apply Hnotin.
  apply elem_of_seq. split; [lia|]. simpl. by eapply lookup_lt_Some.
Qed.

End EventsFacts.

Section EventsClaims.
Import Events.
Implicit Types (bus : EventBus) (rt : Runtime) (h : EventHandler)
  (hs : list EventHandler) (event : string) (payload : any) (k i : nat).

(** C3. On a bus made by [NewEventBus] and [On], emitting an event that has
    no registered handler returns at once, normally, and leaves the process
    as it was: nothing is printed and no goroutine is started. ([Emit] has
    no error result and never writes to the registry.) *)
Theorem Emit_without_handlers event payload bus rt :
  built bus →
  registered bus event = [] →
  Emit event payload bus rt = (rt, Normal).
Proof.
  intros Hb Hr. apply Emit_None. by apply built_registered_nil.
Qed.

Lemma Emit_without_handlers_witness :
  Emit "team.created" (Some (Int 1))
       (On "user.created" (mkHandler 0 (λ _, Returns)) NewEventBus boot).1 boot
  = (boot, Normal).
Proof.
  apply (Emit_without_handlers "team.created" (Some (Int 1))
           (On "user.created" (mkHandler 0 (λ _, Returns)) NewEventBus boot).1 boot).
  - apply built_on, built_new.
  - reflexivity.
Defined.

(** What [Emit] starts for an event that has handlers. *)
Lemma Emit_dispatch event payload bus rt hs :
  handlers bus !! event = Some hs →
  (Emit event payload bus rt).2 = Normal
  ∧ goroutines (Emit event payload bus rt).1
    = goroutines rt ++ ((λ h, mkG h payload Ready) <$> hs)
  ∧ calls (Emit event payload bus rt).1 = calls rt
  ∧ crashed (Emit event payload bus rt).1 = crashed rt.
Proof. intros Hhs. by rewrite (Emit_Some _ _ _ _ _ Hhs). Qed.

Lemma Emit_waiting event payload bus rt hs k :
  handlers bus !! event = Some hs →
  waiting k (Emit event payload bus rt).1 = (waiting k rt + registrations k hs)%nat
  ∧ invocations k (Emit event payload bus rt).1 = invocations k rt.
Proof.
  intros Hhs. rewrite (Emit_Some _ _ _ _ _ Hhs). split; [|done].
  unfold waiting. cbn [fst goroutines].
  by rewrite filter_app, length_app, waiting_spawned.
Qed.

(** Once the goroutines started by [Emit] have all been run, each handler
    has been invoked once per registration. *)
Lemma Emit_all_invoked event payload bus rt hs k rt' :
  handlers bus !! event = Some hs →
  steps (Emit event payload bus rt).1 rt' →
  quiescent rt' →
  invocations k rt' = (invocations k rt + waiting k rt + registrations k hs)%nat.
Proof.
  intros Hhs Hsteps Hq.
  pose proof (steps_count k _ _ Hsteps) as Hcount.
  destruct (Emit_waiting event payload bus rt hs k Hhs) as [Hw Hi].
  rewrite (quiescent_waiting k rt' Hq), Hw, Hi in Hcount. lia.
Qed.


(** C4. For an event with handlers, [Emit] ends normally for its caller and
    starts one goroutine per handler, whatever the handlers do. When a
    handler panics in its goroutine, the panic is recovered there and one
    ERROR line is printed: the process stays alive, the goroutine is done,
    and every other goroutine is left as it was. The process stays alive
    along every run, a run to the end always exists, and at its end every
    handler has been invoked once per registration. *)
Theorem Emit_panic_contained event payload bus rt hs :
  handlers bus !! event = Some hs →
  crashed rt = false →
  let rtE := (Emit event payload bus rt).1 in
  (Emit event payload bus rt).2 = Normal
  ∧ goroutines rtE = goroutines rt ++ ((λ h, mkG h payload Ready) <$> hs)
  ∧ (∀ rt1 i h p r,
       steps rtE rt1 →
       goroutines rt1 !! i = Some (mkG h p Ready) →
       call h p = Panics r →
       ∃ rt2, run_goroutine i rt1 = Some rt2
              ∧ crashed rt2 = false
              ∧ stdout rt2 = stdout rt1 ++ [panicLine r]
              ∧ goroutines rt2 !! i = Some (mkG h p Done)
              ∧ ∀ j, j ≠ i → goroutines rt2 !! j = goroutines rt1 !! j)
  ∧ (∀ rt', steps rtE rt' → crashed rt' = false)
  ∧ (∃ rt', steps rtE rt' ∧ quiescent rt')
  ∧ (∀ rt' k, steps rtE rt' → quiescent rt' →
       invocations k rt'
       = (invocations k rt + waiting k rt + registrations k hs)%nat).
Proof.
  intros Hhs Hc rtE.
  destruct (Emit_dispatch event payload bus rt hs Hhs) as (Hn & Hg & _ & HcE).
  assert (HaliveE : crashed rtE = false) by (subst rtE; congruence).
  repeat split; try done.
  - intros rt1 i h p r Hsteps Hi Hcall.
    pose proof (steps_alive _ _ Hsteps HaliveE) as Hc1.
    exists (ran i h p rt1). split; [by apply run_goroutine_ready|].
    unfold ran. cbn [crashed stdout goroutines]. rewrite Hcall.
    repeat split; try done.
    + apply list_lookup_insert_eq. by eapply lookup_lt_Some.
    + intros j Hne. by rewrite list_lookup_insert_ne.
  - intros rt' Hsteps. by eapply steps_alive.
  - exists (run_all rtE). by apply run_all_quiescent.
  - intros rt' k Hsteps Hq. by eapply Emit_all_invoked.
Qed.

Lemma Emit_panic_contained_witness :
  let bad := mkHandler 1 (λ _, Panics (Str "boom")) in
  let good := mkHandler 2 (λ _, Returns) in
  let bus := (On "x.e" good (On "x.e" bad NewEventBus boot).1 boot).1 in
  let rtE := (Emit "x.e" (Some (Int 1)) bus boot).1 in
  (Emit "x.e" (Some (Int 1)) bus boot).2 = Normal
  ∧ goroutines rtE
    = goroutines boot ++ ((λ h, mkG h (Some (Int 1)) Ready) <$> [bad; good])
  ∧ (∀ rt1 i h p r,
       steps rtE rt1 →
       goroutines rt1 !! i = Some (mkG h p Ready) →
       call h p = Panics r →
       ∃ rt2, run_goroutine i rt1 = Some rt2
              ∧ crashed rt2 = false
              ∧ stdout rt2 = stdout rt1 ++ [panicLine r]
              ∧ goroutines rt2 !! i = Some (mkG h p Done)
              ∧ ∀ j, j ≠ i → goroutines rt2 !! j = goroutines rt1 !! j)
  ∧ (∀ rt', steps rtE rt' → crashed rt' = false)
  ∧ (∃ rt', steps rtE rt' ∧ quiescent rt')
  ∧ (∀ rt' k, steps rtE rt' → quiescent rt' →
       invocations k rt'
       = (invocations k boot + waiting k boot + registrations k [bad; good])%nat).
Proof.
  intros bad good bus.
  apply (Emit_panic_contained "x.e" (Some (Int 1)) bus boot [bad; good]).
  - reflexivity.
  - reflexivity.
Defined.

Lemma On_twice_handlers event h bus rt rt' :
  handlers (On event h (On event h bus rt).1 rt').1 !! event
  = Some (registered bus event ++ [h; h]).
Proof.
  cbn [On fst handlers]. rewrite lookup_insert_eq.
  pose proof (registered_On event h bus rt) as Hr. cbn [On fst] in Hr.
  by rewrite Hr, <- app_assoc.
Qed.

(** C5. Registering the same handler twice for an event appends it twice to
    the event's handler list: nothing is deduplicated. A following [Emit]
    starts one goroutine per entry of the list, and once these have run
    (a run to the end always exists) the handler has been invoked twice
    more than its earlier registrations and pending or past invocations
    account for: exactly twice on a bus that did not hold it before. *)
Theorem On_twice_invoked_twice event h bus rt payload :
  crashed rt = false →
  let bus1 := (On event h bus rt).1 in
  let rt1 := (On event h bus rt).2 in
  let bus2 := (On event h bus1 rt1).1 in
  let rt2 := (On event h bus1 rt1).2 in
  let rtE := (Emit event payload bus2 rt2).1 in
  registered bus2 event = registered bus event ++ [h; h]
  ∧ goroutines rtE
    = goroutines rt
      ++ ((λ h', mkG h' payload Ready) <$> (registered bus event ++ [h; h]))
  ∧ (∃ rt', steps rtE rt' ∧ quiescent rt')
  ∧ (∀ rt', steps rtE rt' → quiescent rt' →
       invocations (fn h) rt'
       = (invocations (fn h) rt + waiting (fn h) rt
          + registrations (fn h) (registered bus event) + 2)%nat).
Proof.
  intros Hc bus1 rt1 bus2 rt2 rtE.
  assert (Hhs : handlers bus2 !! event = Some (registered bus event ++ [h; h])).
  { apply On_twice_handlers. }
  destruct (Emit_dispatch event payload bus2 rt2 _ Hhs) as (_ & Hg & _ & HcE).
  repeat split.
  - unfold registered at 1. by rewrite Hhs.
  - exact Hg.
  - exists (run_all rtE). apply run_all_quiescent. subst rtE. by rewrite HcE.
  - intros rt' Hsteps Hq.
    rewrite (Emit_all_invoked event payload bus2 rt2 _ (fn h) rt' Hhs Hsteps Hq).
    change (invocations (fn h) rt2) with (invocations (fn h) rt).
    change (waiting (fn h) rt2) with (waiting (fn h) rt).
    unfold registrations. rewrite filter_app, length_app. simpl.
    rewrite !filter_cons, !decide_True by done. simpl. lia.
Qed.

Lemma On_twice_invoked_twice_witness :
  let h := mkHandler 7 (λ _, Returns) in
  let bus2 := (On "x.e" h (On "x.e" h NewEventBus boot).1
                 (On "x.e" h NewEventBus boot).2).1 in
  let rt2 := (On "x.e" h (On "x.e" h NewEventBus boot).1
                (On "x.e" h NewEventBus boot).2).2 in
  registered bus2 "x.e" = [h; h]
  ∧ ∀ rt', steps (Emit "x.e" (Some (Int 1)) bus2 rt2).1 rt' → quiescent rt' →
           invocations 7 rt' = 2%nat.
Proof.
  intros h bus2 rt2.
  destruct (On_twice_invoked_twice "x.e" h NewEventBus boot (Some (Int 1)) eq_refl)
    as (Hreg & _ & _ & Hcount).
  split; [exact Hreg|]. intros rt' Hsteps Hq. exact (Hcount rt' Hsteps Hq).
Defined.



(** The scenario of the specification: the handler that panics comes first,
    every handler counts its invocation; both are invoked, the panic is
    printed, the process lives. *)
Example panic_first_then_counter :
  let bad := mkHandler 1 (λ _, Panics (Str "boom")) in
  let good := mkHandler 2 (λ _, Returns) in
  let bus := (On "x.e" good (On "x.e" bad NewEventBus boot).1 boot).1 in
  let rt' := run_all (Emit "x.e" (Some (Int 1)) bus boot).1 in
  calls rt' = [(1%nat, Some (Int 1)); (2%nat, Some (Int 1))]
  ∧ crashed rt' = false
  ∧ state <$> goroutines rt' = [Done; Done]
  ∧ stdout rt'
    = [Logger.mkLine "INFO" "EVENTS" "Emitting event: x.e";
       Logger.mkLine "ERROR" "EVENTS" "Panic in event handler: panic: boom"].
Proof. repeat split; vm_compute; reflexivity. Qed.

End EventsClaims.

(** ** The worker server *)

Section ServerClaims.
Import TaskServer.

Lemma NewServer_queue_lookup redisAddr username password db handler logger q w :
  Asynq.Queues (Asynq.cfg (server (NewServer redisAddr username password db handler logger)))
    !! q = Some w →
  (q = "critical" ∧ w = 6) ∨ (q = "default" ∧ w = 3) ∨ (q = "low" ∧ w = 1).
Proof.
  cbn [NewServer server Asynq.cfg Asynq.Queues].
  unfold QueueCritical, QueueDefault, QueueLow.
  rewrite !lookup_insert, lookup_empty.
  repeat case_decide; intros [= <-]; subst; auto.
Qed.

(** C2. [NewServer] configures exactly the queues critical, default and low,
    with the weights 6, 3 and 1, and sets strict priority. The processor
    therefore polls the queues in that order whatever the random order
    would have been, so that the queue a task is taken from has a ready
    task and no queue of greater weight has one; and some queue is chosen
    whenever one of the three has a ready task. *)
Theorem NewServer_strict_priority_queues redisAddr username password db handler logger :
  let c := Asynq.cfg (server (NewServer redisAddr username password db handler logger)) in
  Asynq.Queues c = <["critical" := 6]> (<["default" := 3]> (<["low" := 1]> ∅))
  ∧ dom (Asynq.Queues c) = ({["critical"; "default"; "low"]} : gset string)
  ∧ size (Asynq.Queues c) = 3%nat
  ∧ Asynq.StrictPriority c = true
  ∧ (∀ shuffled, Asynq.queues c shuffled = ["critical"; "default"; "low"])
  ∧ (∀ shuffled ready q,
       Asynq.dequeue c shuffled ready = Some q →
       (0 < ready q)%nat
       ∧ ∀ q' w w', Asynq.Queues c !! q = Some w →
                    Asynq.Queues c !! q' = Some w' →
                    w < w' → ready q' = 0%nat)
  ∧ (∀ shuffled ready q w,
       Asynq.Queues c !! q = Some w → (0 < ready q)%nat →
       is_Some (Asynq.dequeue c shuffled ready)).
Proof.
  intros c.
  assert (Horder : ∀ shuffled, Asynq.queues c shuffled = ["critical"; "default"; "low"]).
  { intros shuffled. vm_compute. reflexivity. }
  split; [reflexivity|]. split.
  { subst c. cbn [NewServer server Asynq.cfg Asynq.Queues].
    rewrite !dom_insert_L, dom_empty_L.
    unfold QueueCritical, QueueDefault, QueueLow. set_solver. }
  split; [by vm_compute|]. split; [reflexivity|]. split; [exact Horder|].
  split.
  - intros shuffled ready q. unfold Asynq.dequeue. rewrite Horder. cbn [List.find].
    repeat case_bool_decide; intros [= <-]; (split; [done|]);
      intros q' w w' Hq Hq';
      apply NewServer_queue_lookup in Hq as [[? ->]|[[? ->]|[? ->]]]; try done;
      apply NewServer_queue_lookup in Hq' as [[-> ->]|[[-> ->]|[-> ->]]];
      intros; lia.
  - intros shuffled ready q w Hq Hready. unfold Asynq.dequeue.
    rewrite Horder. cbn [List.find].
    apply NewServer_queue_lookup in Hq as [[-> _]|[[-> _]|[-> _]]];
      repeat case_bool_decide; try done; lia.
Qed.

End ServerClaims.

(** ** The scheduler and the cron option *)

Section SchedulerClaims.
Import TaskScheduler.
Context `{Cron}.

(** C6. [Apply] never fails. When the expression does not parse, the next
    processing time is one hour after [now]; when it parses, it is the
    schedule's next fire time after [now]. Nothing else of the task's info
    changes. *)
Theorem Apply_next_process_time (s : cronSchedule) (now : Z) (opts : Asynq.TaskInfo) :
  (∀ e, ParseStandard (expr s) = Err e →
        Asynq.NextProcessAt (Apply s now opts) = now + 3600 * Second)
  ∧ (∀ schedule, ParseStandard (expr s) = Ok schedule →
        Asynq.NextProcessAt (Apply s now opts) = Next schedule now)
  ∧ Asynq.ID (Apply s now opts) = Asynq.ID opts
  ∧ Asynq.Queue (Apply s now opts) = Asynq.Queue opts
  ∧ Asynq.Type_ (Apply s now opts) = Asynq.Type_ opts
  ∧ Asynq.Payload (Apply s now opts) = Asynq.Payload opts.
Proof.
  unfold Apply. destruct (ParseStandard (expr s)) as [schedule|e]; cbn.
  - repeat split; try done. intros schedule' [= <-]. done.
  - repeat split; try done.
Qed.

(** C7, as the code has it. [RegisterCustomTask] returns an [error] and
    nothing else. When the spec parses, the entry is filed under a fresh
    identifier, the identifier is printed in an INFO line, and the result is
    [nil]. When the spec does not parse, nothing is filed or printed and
    the result is the parser's error wrapped in "failed to register custom
    task: ". *)
Theorem RegisterCustomTask_result (s : Scheduler) (spec taskType : string)
    (payload : list Byte.byte) (opts : list string) (out : list Logger.Line) :
  (∀ schedule, ParseStandard spec = Ok schedule →
     let id := Asynq.uuid (scheduler s) (Asynq.minted (scheduler s)) in
     RegisterCustomTask s spec taskType payload opts out
     = (mkScheduler
          (Asynq.mkScheduler
             (Asynq.entries (scheduler s)
              ++ [Asynq.mkEntry id spec (Asynq.NewTask taskType payload opts)])
             (Asynq.uuid (scheduler s))
             (S (Asynq.minted (scheduler s))))
          (logger s),
        out ++ [Logger.mkLine "INFO" (Logger.serviceName (logger s))
                  ("registered custom task " +:+ taskType +:+ " " +:+ spec
                   +:+ " " +:+ id)],
        None))
  ∧ (∀ e, ParseStandard spec = Err e →
       RegisterCustomTask s spec taskType payload opts out
       = (s, out, Some ("failed to register custom task: " +:+ e))).
Proof.
  unfold RegisterCustomTask, Asynq.Register. split.
  - intros schedule ->. cbn zeta. unfold Logger.Info. cbn.
    by rewrite append_empty_r.
  - intros e ->. destruct s. cbn. by rewrite append_empty_r.
Qed.

End SchedulerClaims.

Section SchedulerExamples.
Import TaskScheduler.

Lemma Apply_next_process_time_witness :
  Asynq.NextProcessAt
    (@Apply descriptorsOnly (CronSchedule "every now and then")
       1700000000000000000 sampleInfo)
  = 1700003600000000000
  ∧ Asynq.NextProcessAt
      (@Apply descriptorsOnly (CronSchedule "@hourly")
         1700000000000000000 sampleInfo)
    = 1700002800000000000.
Proof.
  split.
  - exact (proj1 (@Apply_next_process_time descriptorsOnly
                    (CronSchedule "every now and then")
                    1700000000000000000 sampleInfo)
             "unrecognized descriptor: every now and then" eq_refl).
  - exact (proj1 (proj2 (@Apply_next_process_time descriptorsOnly
                           (CronSchedule "@hourly")
                           1700000000000000000 sampleInfo))
             Hour eq_refl).
Defined.

Lemma RegisterCustomTask_result_witness :
  @RegisterCustomTask descriptorsOnly sampleScheduler "@hourly" "queue:config" [] [] []
  = (mkScheduler
       (Asynq.mkScheduler
          [Asynq.mkEntry "entry-0" "@hourly" (Asynq.NewTask "queue:config" [] [])]
          (Asynq.uuid (scheduler sampleScheduler)) 1)
       (Logger.New "scheduler"),
     [Logger.mkLine "INFO" "scheduler"
        "registered custom task queue:config @hourly entry-0"],
     None)
  ∧ @RegisterCustomTask descriptorsOnly sampleScheduler "* * *" "queue:config" [] [] []
    = (sampleScheduler, [],
       Some "failed to register custom task: unrecognized descriptor: * * *").
Proof.
  split.
  - exact (proj1 (@RegisterCustomTask_result descriptorsOnly sampleScheduler
                    "@hourly" "queue:config" [] [] [])
             Hour eq_refl).
  - exact (proj2 (@RegisterCustomTask_result descriptorsOnly sampleScheduler
                    "* * *" "queue:config" [] [] [])
             "unrecognized descriptor: * * *" eq_refl).
Defined.

(** C7, as the specification has it, asks for the new entry's ID as the
    result. Two registrations that succeed, filed under the identifiers
    entry-0 and entry-1, both return [nil]: the result does not carry the
    identifier. *)
Lemma RegisterCustomTask_returns_no_entry_id :
  let r1 := @RegisterCustomTask descriptorsOnly sampleScheduler
              "@hourly" "queue:config" [] [] [] in
  let r2 := @RegisterCustomTask descriptorsOnly r1.1.1
              "@daily" "queue:config" [] [] [] in
  Asynq.entryID <$> Asynq.entries (scheduler r2.1.1) = ["entry-0"; "entry-1"]
  ∧ r1.2 = None
  ∧ r2.2 = None
  ∧ r1.2 ≠ Some "entry-0"
  ∧ r2.2 ≠ Some "entry-1".
Proof. repeat split; try (vm_compute; reflexivity); vm_compute; discriminate. Qed.

End SchedulerExamples.

(** * Further properties of the code *)

(** ** The rate limiter: answers, bursts, idle keys, isolation *)

Section AllowMore.
Import Redis Rate.
Implicit Types (qrl : QueueRateLimiter) (c : Client) (now : Z).

Lemma append_inj_r (p a b : string) : p +:+ a = p +:+ b → a = b.
Proof.
  induction p as [|x p IH]; [done|].
  intros Heq. apply IH.
  change (String x (p +:+ a) = String x (p +:+ b)) in Heq.
  by injection Heq.
Qed.

Lemma limiterKey_inj qrl a b : limiterKey qrl a = limiterKey qrl b → a = b.
Proof.
  unfold limiterKey. intros Heq.
  by do 3 apply append_inj_r in Heq.
Qed.




(** A call for one identifier leaves the key of every other identifier of
    the same limiter as it was, set and time to live. *)
Theorem Allow_other_identifier_untouched qrl now a b c :
  a ≠ b →
  db (Allow qrl now a c).1 !! limiterKey qrl b = db c !! limiterKey qrl b.
Proof.
  intros Hab. destruct (online c) eqn:Hon.
  - destruct (Allow_online qrl now a c Hon) as (d' & -> & _ & _ & Hother).
    apply Hother. intros Heq. by apply Hab, (limiterKey_inj qrl).
  - by rewrite Allow_offline.
Qed.

Lemma Allow_other_identifier_untouched_witness :
  db (Allow perSecond3 1700000000 "user-1" emptyStore).1
     !! limiterKey perSecond3 "user-2"
  = db emptyStore !! limiterKey perSecond3 "user-2".
Proof.
  apply (Allow_other_identifier_untouched perSecond3 1700000000
           "user-1" "user-2" emptyStore).
  discriminate.
Defined.

Lemma windowStart_small qrl now :
  0 ≤ Window (Limit (config qrl)) < 2 ^ 62 →
  0 ≤ now < 2 ^ 63 →
  windowStart qrl now
  = now - Duration_Seconds_int64 (Window (Limit (config qrl)))
  ∧ 0 ≤ Duration_Seconds_int64 (Window (Limit (config qrl)))
      ≤ Window (Limit (config qrl)).
Proof.
  intros Hw Hnow.
  assert (Hsecs : 0 ≤ Duration_Seconds_int64 (Window (Limit (config qrl)))
                      ≤ Window (Limit (config qrl))).
  { unfold Duration_Seconds_int64, Second. split.
    - apply Z.quot_pos; lia.
    - apply Z.quot_le_upper_bound; lia. }
  split; [|done]. unfold windowStart. apply wrap64_small. lia.
Qed.

Lemma expiry_small qrl :
  0 < Window (Limit (config qrl)) < 2 ^ 62 →
  expiry qrl = 2 * Window (Limit (config qrl)) ∧ ¬ expiry qrl ≤ 0.
Proof.
  intros Hw. assert (expiry qrl = 2 * Window (Limit (config qrl))) as ->.
  { unfold expiry. rewrite wrap64_small; lia. }
  split; [done | lia].
Qed.

(** When every recorded entry lies between the epoch and the start of the
    window, pruning leaves nothing. *)
Lemma kept_empty qrl now identifier c :
  0 ≤ Window (Limit (config qrl)) < 2 ^ 62 →
  0 ≤ now < 2 ^ 63 →
  (∀ m s, zmembers (limiterKey qrl identifier) (db c) !! m = Some s →
          0 ≤ s ≤ now - Duration_Seconds_int64 (Window (Limit (config qrl)))) →
  kept qrl now identifier c = ∅.
Proof.
  intros Hw Hnow Hold. destruct (windowStart_small qrl now Hw Hnow) as [Hws _].
  apply map_eq; intros m. rewrite lookup_empty. apply option_eq; intros s.
  unfold kept. rewrite outside_lookup_Some, Hws.
  split; [|done]. intros [Hm Hout]. destruct Hout. by eapply Hold.
Qed.



(** *** A burst of calls inside one window *)

Lemma AllowAll_burst_from qrl identifier rest : ∀ issued c,
  online c = true →
  0 < Window (Limit (config qrl)) < 2 ^ 62 →
  size (zmembers (limiterKey qrl identifier) (db c)) = length issued →
  (∀ m s, zmembers (limiterKey qrl identifier) (db c) !! m = Some s
          ↔ m = s ∧ m ∈ issued) →
  (∀ s t, s ∈ issued → t ∈ rest → s < t) →
  StronglySorted Z.lt rest →
  (∀ s t, s ∈ issued ++ rest → t ∈ rest →
          t - Duration_Seconds_int64 (Window (Limit (config qrl))) < s) →
  (∀ t, t ∈ rest → 0 ≤ t < 2 ^ 63) →
  (AllowAll qrl identifier rest c).2
  = (λ i, Return (bool_decide (Z.of_nat i ≤ MaxJobs (Limit (config qrl)))) None)
      <$> seq (length issued) (length rest)
  ∧ size (zmembers (limiterKey qrl identifier)
            (db (AllowAll qrl identifier rest c).1))
    = (length issued + length rest)%nat
  ∧ ∀ m s, zmembers (limiterKey qrl identifier)
             (db (AllowAll qrl identifier rest c).1) !! m = Some s
           ↔ m = s ∧ m ∈ issued ++ rest.
Proof.
  induction rest as [|now rest IH];
    intros issued c Hon Hw Hsize Hset Hlt Hsorted Hwin Hrange.
  - cbn. rewrite Nat.add_0_r, app_nil_r. done.
  - cbn [AllowAll].
    destruct (Allow_online qrl now identifier c Hon) as (d' & HA & Hz & _).
    destruct (expiry_small qrl Hw) as [_ Hexp].
    rewrite decide_False in Hz by done.
    assert (Hnow : 0 ≤ now < 2 ^ 63) by (apply Hrange; left).
    destruct (windowStart_small qrl now ltac:(lia) Hnow) as [Hws _].
    assert (Hkept : kept qrl now identifier c
                    = zmembers (limiterKey qrl identifier) (db c)).
    { apply map_eq; intros m. apply option_eq; intros s.
      unfold kept. rewrite outside_lookup_Some, Hws.
      split; [by intros [? _]|]. intros Hm. split; [done|].
      apply Hset in Hm as [<- Hin].
      assert (now - Duration_Seconds_int64 (Window (Limit (config qrl))) < m).
      { apply Hwin; [|left]. apply elem_of_app. by left. }
      lia. }
    assert (Hfresh : zmembers (limiterKey qrl identifier) (db c) !! now = None).
    { destruct (zmembers (limiterKey qrl identifier) (db c) !! now) as [s|] eqn:E;
        [|done].
      apply Hset in E as [_ Hin]. specialize (Hlt now now Hin ltac:(left)). lia. }
    rewrite HA, Hkept, Hsize.
    set (c1 := mkClient true d').
    destruct (AllowAll qrl identifier rest c1) as [c2 os] eqn:E2.
    assert (Hos : os = (AllowAll qrl identifier rest c1).2) by by rewrite E2.
    assert (Hc2 : c2 = (AllowAll qrl identifier rest c1).1) by by rewrite E2.
    destruct (IH (issued ++ [now]) c1) as (Hout & Hsz & Hch).
    + done.
    + done.
    + subst c1. cbn [db]. rewrite Hz, Hkept, map_size_insert, Hfresh, Hsize.
      rewrite length_app. simpl. lia.
    + intros m s. subst c1. cbn [db]. rewrite Hz, Hkept.
      rewrite elem_of_app, list_elem_of_singleton.
      destruct (decide (now = m)) as [<-|Hne].
      * rewrite lookup_insert_eq. split; [intros [= <-]; auto|]. by intros [-> _].
      * rewrite lookup_insert_ne, Hset by done. 
        split; [intros [-> ?]; auto|]. intros [-> [?|?]]; [done|congruence].
    + intros s t Hs Ht. apply elem_of_app in Hs as [Hs|Hs].
      * apply Hlt; [done | by right].
      * apply list_elem_of_singleton in Hs as ->.
        apply StronglySorted_inv in Hsorted as [_ Hall].
        rewrite Forall_forall in Hall. by apply Hall.
    + by apply StronglySorted_inv in Hsorted as [? _].
    + intros s t Hs Ht. apply Hwin; [|by right].
      rewrite <- app_assoc in Hs. exact Hs.
    + intros t Ht. apply Hrange. by right.
    + cbn [fst snd]. rewrite Hos, Hc2, Hout, Hsz.
      rewrite length_app. cbn [length seq fmap list_fmap].
      rewrite Nat.add_1_r. split; [done|]. split; [lia|].
      intros m s. rewrite Hch, <- app_assoc. done.
Qed.

(** Calls at strictly increasing seconds that all fall inside one window,
    on a key that holds nothing yet: the i-th call (counting from 0) is
    admitted exactly when i <= [MaxJobs], so a limit of [MaxJobs] lets
    [MaxJobs + 1] calls through; and every call, admitted or not, leaves
    its entry in the set. *)
Theorem AllowAll_burst qrl identifier clock c t0 :
  online c = true →
  zmembers (limiterKey qrl identifier) (db c) = ∅ →
  0 < Window (Limit (config qrl)) < 2 ^ 62 →
  StronglySorted Z.lt clock →
  0 ≤ t0 →
  Forall (λ t, t0 ≤ t < t0 + Duration_Seconds_int64 (Window (Limit (config qrl)))
               ∧ t < 2 ^ 63) clock →
  (AllowAll qrl identifier clock c).2
  = (λ i, Return (bool_decide (Z.of_nat i ≤ MaxJobs (Limit (config qrl)))) None)
      <$> seq 0 (length clock)
  ∧ size (zmembers (limiterKey qrl identifier)
            (db (AllowAll qrl identifier clock c).1))
    = length clock
  ∧ ∀ m s, zmembers (limiterKey qrl identifier)
             (db (AllowAll qrl identifier clock c).1) !! m = Some s
           ↔ m = s ∧ m ∈ clock.
Proof.
  intros Hon Hempty Hw Hsorted Ht0 Hclock. rewrite Forall_forall in Hclock.
  apply (AllowAll_burst_from qrl identifier clock [] c); try done.
  - by rewrite Hempty, map_size_empty.
  - intros m s. rewrite Hempty, lookup_empty, elem_of_nil.
    split; [done | by intros [_ ?]].
  - intros s t Hs. by apply elem_of_nil in Hs.
  - intros s t Hs Ht. cbn in Hs.
    pose proof (Hclock s Hs). pose proof (Hclock t Ht). lia.
  - intros t Ht. pose proof (Hclock t Ht). lia.
Qed.

Lemma AllowAll_burst_witness :
  let clock := [1700000000; 1700000001; 1700000002; 1700000003; 1700000004] in
  (AllowAll perTenSeconds3 "user-1" clock emptyStore).2
  = (λ i, Return (bool_decide (Z.of_nat i ≤ 3)) None) <$> seq 0 5
  ∧ size (zmembers (limiterKey perTenSeconds3 "user-1")
            (db (AllowAll perTenSeconds3 "user-1" clock emptyStore).1))
    = 5%nat
  ∧ ∀ m s, zmembers (limiterKey perTenSeconds3 "user-1")
             (db (AllowAll perTenSeconds3 "user-1" clock emptyStore).1) !! m
           = Some s
           ↔ m = s ∧ m ∈ clock.
Proof.
  intros clock.
  apply (AllowAll_burst perTenSeconds3 "user-1" clock emptyStore 1700000000).
  - reflexivity.
  - reflexivity.
  - vm_compute. split; reflexivity.
  - subst clock. repeat (constructor; [|repeat constructor; reflexivity]).
    constructor.
  - lia.
  - subst clock. repeat constructor; vm_compute; congruence.
Defined.

(** *** Windows shorter than a second *)

(** A window of less than one second counts as zero seconds, so the
    pruning range reaches up to [now] itself: as long as the clock does not
    run backwards every call finds the set empty and is admitted, however
    many calls there are. *)
Theorem AllowAll_subsecond_window_never_limits qrl identifier clock : ∀ c b,
  online c = true →
  0 < Window (Limit (config qrl)) < Second →
  0 ≤ MaxJobs (Limit (config qrl)) →
  0 ≤ b →
  (∀ m s, zmembers (limiterKey qrl identifier) (db c) !! m = Some s →
          0 ≤ s ≤ b) →
  StronglySorted Z.le clock →
  Forall (λ t, b ≤ t < 2 ^ 63) clock →
  (AllowAll qrl identifier clock c).2
  = replicate (length clock) (Return true None).
Proof.
  induction clock as [|now clock IH];
    intros c b Hon Hw Hmax Hb Hold Hsorted Hclock; [done|].
  cbn [AllowAll length replicate].
  assert (Hw62 : 0 < Window (Limit (config qrl)) < 2 ^ 62)
    by (unfold Second in Hw; lia).
  assert (Hsecs : Duration_Seconds_int64 (Window (Limit (config qrl))) = 0).
  { unfold Duration_Seconds_int64. apply Z.quot_small. lia. }
  apply Forall_cons in Hclock as [Hnow Hclock].
  apply StronglySorted_inv in Hsorted as [Hsorted Hle].
  destruct (Allow_online qrl now identifier c Hon) as (d' & HA & Hz & _).
  destruct (expiry_small qrl Hw62) as [_ Hexp].
  rewrite decide_False in Hz by done.
  assert (Hkept : kept qrl now identifier c = ∅).
  { apply kept_empty; [lia | lia |]. intros m s Hm. rewrite Hsecs.
    specialize (Hold m s Hm). lia. }
  rewrite HA, Hkept, map_size_empty.
  rewrite bool_decide_eq_true_2 by done.
  set (c1 := mkClient true d').
  destruct (AllowAll qrl identifier clock c1) as [c2 os] eqn:E2.
  cbn [snd]. f_equal.
  change os with (c2, os).2. rewrite <- E2.
  apply (IH c1 now); try done.
  - lia.
  - intros m s. subst c1. cbn [db]. rewrite Hz, Hkept, insert_empty.
    intros [<- <-]%lookup_singleton_Some. lia.
  - rewrite Forall_forall in Hle, Hclock |- *. intros t Ht.
    specialize (Hle t Ht). specialize (Hclock t Ht). lia.
Qed.

Lemma AllowAll_subsecond_window_never_limits_witness :
  (AllowAll (NewQueueRateLimiter (mkQueueConfig "mail" (mkRateLimit 500000000 3)))
     "user-1"
     [1700000000; 1700000000; 1700000000; 1700000000; 1700000000; 1700000001]
     emptyStore).2
  = replicate 6 (Return true None).
Proof.
  apply (AllowAll_subsecond_window_never_limits
           (NewQueueRateLimiter (mkQueueConfig "mail" (mkRateLimit 500000000 3)))
           "user-1"
           [1700000000; 1700000000; 1700000000; 1700000000; 1700000000; 1700000001]
           emptyStore 0).
  - reflexivity.
  - vm_compute. split; reflexivity.
  - vm_compute. discriminate.
  - lia.
  - intros m s. unfold zmembers, emptyStore. cbn [db].
    rewrite lookup_empty. by rewrite lookup_empty.
  - repeat (constructor; [|repeat constructor; vm_compute; discriminate]).
    constructor.
  - repeat constructor; vm_compute; congruence.
Defined.

End AllowMore.

(** ** The event bus: registration order, routing, scheduling *)

Section EventsMore.
Import Events.
Implicit Types (bus : EventBus) (rt : Runtime) (h : EventHandler)
  (hs : list EventHandler) (event : string) (payload : any) (k i : nat).

Lemma filter_length_insert {A} (P : A → Prop) `{∀ x, Decision (P x)}
    (l : list A) (i : nat) (x y : A) :
  l !! i = Some x →
  (length (filter P (<[i := y]> l)) + (if decide (P x) then 1 else 0)
   = length (filter P l) + (if decide (P y) then 1 else 0))%nat.
Proof.
  intros Hi. pose proof (lookup_lt_Some _ _ _ Hi) as Hlt.
  rewrite insert_take_drop by done.
  rewrite <- (take_drop_middle l i x Hi) at 3.
  rewrite !filter_app, !length_app, !filter_cons.
  destruct (decide (P x)), (decide (P y)); simpl; lia.
Qed.

Lemma OnAll_cons r regs bus rt :
  OnAll (r :: regs) bus rt = OnAll regs (On r.1 r.2 bus rt).1 (On r.1 r.2 bus rt).2.
Proof. done. Qed.

(** After any series of registrations the handlers of an event are those
    registered for it, in the order of registration, behind the ones the
    bus held before; the bus is still one the package hands out, and
    registering has neither started nor run anything. *)
Theorem OnAll_registered regs : ∀ bus rt event,
  registered (OnAll regs bus rt).1 event
  = registered bus event ++ (filter (λ r, r.1 = event) regs).*2
  ∧ (built bus → built (OnAll regs bus rt).1)
  ∧ goroutines (OnAll regs bus rt).2 = goroutines rt
  ∧ calls (OnAll regs bus rt).2 = calls rt
  ∧ length (stdout (OnAll regs bus rt).2) = (length (stdout rt) + length regs)%nat.
Proof.
  induction regs as [|[e h] regs IH]; intros bus rt event.
  - cbn. rewrite app_nil_r, Nat.add_0_r. done.
  - rewrite OnAll_cons. cbn [fst snd].
    destruct (IH (On e h bus rt).1 (On e h bus rt).2 event)
      as (Hreg & Hbuilt & Hg & Hc & Hout).
    rewrite Hreg, Hg, Hc, Hout. repeat split; try done.
    + rewrite filter_cons. cbn [fst snd]. destruct (decide (e = event)) as [->|Hne].
      * rewrite registered_On. cbn. by rewrite <- app_assoc.
      * f_equal. unfold registered. cbn. by rewrite lookup_insert_ne.
    + intros Hb. apply Hbuilt. by constructor.
    + cbn. unfold Logger.Info. rewrite length_app. cbn. lia.
Qed.

(** Registering a handler for one event changes nothing for any other
    event: an [Emit] of the other event does what it did before. *)
Theorem On_other_event_untouched event event' h bus rt0 payload rt :
  event ≠ event' →
  registered (On event h bus rt0).1 event' = registered bus event'
  ∧ Emit event' payload (On event h bus rt0).1 rt = Emit event' payload bus rt.
Proof.
  intros Hne. unfold registered, Emit. cbn [On fst handlers].
  by rewrite lookup_insert_ne.
Qed.

Lemma On_other_event_untouched_witness :
  Emit "team.created" None
       (On "user.created" (mkHandler 1 (λ _, Returns)) NewEventBus boot).1 boot
  = Emit "team.created" None NewEventBus boot.
Proof.
  exact (proj2 (On_other_event_untouched "user.created" "team.created"
                  (mkHandler 1 (λ _, Returns)) NewEventBus boot None boot
                  ltac:(discriminate))).
Defined.

Lemma Emit_goroutines event payload bus rt :
  goroutines (Emit event payload bus rt).1
  = goroutines rt ++ ((λ h, mkG h payload Ready) <$> registered bus event)
  ∧ calls (Emit event payload bus rt).1 = calls rt
  ∧ crashed (Emit event payload bus rt).1 = crashed rt.
Proof.
  unfold registered. destruct (handlers bus !! event) as [hs|] eqn:Hhs.
  - by rewrite (Emit_Some _ _ _ _ _ Hhs).
  - rewrite (Emit_None _ _ _ _ Hhs). cbn. by rewrite app_nil_r.
Qed.

(** A series of emits starts, for each emit in turn, one goroutine per
    handler registered for its event, in the order of registration and
    with that emit's payload. Registrations are not used up, and no
    handler is invoked by the emits themselves. *)
Theorem EmitAll_dispatch evs bus : ∀ rt,
  goroutines (EmitAll evs bus rt)
  = goroutines rt
    ++ mjoin ((λ ev, (λ h, mkG h ev.2 Ready) <$> registered bus ev.1) <$> evs)
  ∧ calls (EmitAll evs bus rt) = calls rt.
Proof.
  induction evs as [|[e p] evs IH]; intros rt.
  - cbn. by rewrite app_nil_r.
  - change (EmitAll ((e, p) :: evs) bus rt)
      with (EmitAll evs bus (Emit e p bus rt).1).
    destruct (IH (Emit e p bus rt).1) as [Hg Hc].
    destruct (Emit_goroutines e p bus rt) as (Hg1 & Hc1 & _).
    rewrite Hg, Hc, Hg1, Hc1. cbn. by rewrite <- app_assoc.
Qed.

(** *** Scheduling *)

Lemma isReady_ran_state h payload :
  isReady (mkG h payload match call h payload with Blocks => Blocked | _ => Done end)
  = false.
Proof. unfold isReady. cbn. by destruct (call h payload). Qed.




(** *** Panics and what is printed for them *)

Lemma step_error_lines rt rt' :
  step rt rt' →
  (errorLines rt' + panicsWaiting rt' = errorLines rt + panicsWaiting rt)%nat
  ∧ stdout rt `prefix_of` stdout rt'.
Proof.
  intros [i rt0 rt1 Hrun].
  destruct (run_goroutine_Some _ _ _ Hrun) as (_ & h & payload & Hi & ->).
  split; [|by eexists].
  pose proof (filter_length_insert (λ g, isReady g = true ∧ panics g = true)
                (goroutines rt0) i _
                (mkG h payload
                   match call h payload with Blocks => Blocked | _ => Done end)
                Hi) as Hlen.
  cbv beta in Hlen.
  assert (Hy : ¬ (isReady (mkG h payload
                     match call h payload with Blocks => Blocked | _ => Done end)
                  = true
                  ∧ panics (mkG h payload
                      match call h payload with Blocks => Blocked | _ => Done end)
                    = true)).
  { intros [Hr _]. by rewrite isReady_ran_state in Hr. }
  pose proof (decide_False (P := _) 1%nat 0%nat Hy) as E. rewrite E in Hlen.
  clear E Hy.
  unfold errorLines, panicsWaiting, ran. cbn [stdout goroutines].
  rewrite filter_app, length_app.
  assert (Hpanics : panics (mkG h payload Ready)
                    = match call h payload with Panics _ => true | _ => false end)
    by done.
  destruct (call h payload) as [|r|] eqn:Hcall.
  - rewrite decide_False in Hlen by (intros [_ Hp]; congruence).
    cbn. lia.
  - rewrite decide_True in Hlen by done.
    rewrite filter_cons, decide_True by done. cbn. lia.
  - rewrite decide_False in Hlen by (intros [_ Hp]; congruence).
    cbn. lia.
Qed.

Lemma quiescent_panicsWaiting rt : quiescent rt → panicsWaiting rt = 0%nat.
Proof.
  unfold quiescent, panicsWaiting. induction (goroutines rt) as [|g gs IH]; [done|].
  intros Hq. rewrite filter_cons, decide_False.
  - apply IH. intros g' Hg'. apply Hq. by right.
  - intros [Hr _]. rewrite Hq in Hr; [done | by left].
Qed.

(** When a run has come to its end, the bus has printed one ERROR line for
    each goroutine whose handler panicked and none for the others; what
    was printed before is still there, in front. *)
Theorem one_error_line_per_panic rt rt' :
  steps rt rt' →
  quiescent rt' →
  errorLines rt' = (errorLines rt + panicsWaiting rt)%nat
  ∧ stdout rt `prefix_of` stdout rt'.
Proof.
  intros Hsteps Hq.
  assert (Hinv : (errorLines rt' + panicsWaiting rt'
                  = errorLines rt + panicsWaiting rt)%nat
                 ∧ stdout rt `prefix_of` stdout rt').
  { clear Hq. induction Hsteps as [rt|rt1 rt2 rt3 Hs _ IH]; [done|].
    destruct (step_error_lines _ _ Hs) as [Hc Hp]. destruct IH as [IHc IHp].
    split; [lia | by etrans]. }
  destruct Hinv as [Hc Hp]. rewrite (quiescent_panicsWaiting rt' Hq) in Hc.
  split; [lia | done].
Qed.

Lemma one_error_line_per_panic_witness :
  let bad := mkHandler 1 (λ _, Panics (Str "boom")) in
  let good := mkHandler 2 (λ _, Returns) in
  let bus := (On "x.e" good (On "x.e" bad NewEventBus boot).1 boot).1 in
  let rt := (Emit "x.e" None bus boot).1 in
  errorLines (run_all rt) = 1%nat ∧ stdout rt `prefix_of` stdout (run_all rt).
Proof.
  intros bad good bus rt.
  apply (one_error_line_per_panic rt (run_all rt)).
  - eapply steps_step; [apply (step_run 0); reflexivity|].
    eapply steps_step; [apply (step_run 1); reflexivity|].
    apply steps_refl.
  - intros g Hg. vm_compute in Hg.
    apply elem_of_cons in Hg as [->|Hg]; [reflexivity|].
    apply elem_of_cons in Hg as [->|Hg]; [reflexivity|].
    by apply elem_of_nil in Hg.
Defined.

End EventsMore.

(** ** The logger *)

Section LoggerMore.

Lemma Sprintf_plain (c : ascii) (tl : string) (args : list string) :
  Ascii.eqb c "%"%char = false →
  Sprintf (String c tl) args = String c (Sprintf tl args).
Proof. intros Hc. destruct tl; cbn; by rewrite ?Hc. Qed.

(** Text without [%] in front of a format is copied as it stands. *)
Lemma Sprintf_noVerb (prefix rest : string) (args : list string) :
  noVerb prefix = true →
  Sprintf (prefix +:+ rest) args = prefix +:+ Sprintf rest args.
Proof.
  induction prefix as [|c prefix IH]; [done|].
  cbn [noVerb]. intros [Hc Hp]%andb_true_iff. apply negb_true_iff in Hc.
  change (String c prefix +:+ rest) with (String c (prefix +:+ rest)).
  change (String c prefix +:+ Sprintf rest args)
    with (String c (prefix +:+ Sprintf rest args)).
  rewrite Sprintf_plain by done. by rewrite IH.
Qed.

(** [Error] with a message that ends in its one verb, as the event bus
    calls it: the printed line has the verb replaced by the error, the
    returned error keeps the message as it was written, verb included,
    followed by the error. Earlier output is kept. *)
Theorem Error_prints_expanded_returns_raw (l : Logger.Logger)
    (prefix err : string) (out : list Logger.Line) :
  noVerb prefix = true →
  Logger.Error l (prefix +:+ "%v") err [] out
  = (out ++ [Logger.mkLine "ERROR" (Logger.serviceName l) (prefix +:+ err)],
     (prefix +:+ "%v") +:+ ": " +:+ err).
Proof.
  intros Hp. unfold Logger.Error. cbn [app].
  rewrite Sprintf_noVerb by done. cbn. by rewrite !append_empty_r.
Qed.

Lemma Error_prints_expanded_returns_raw_witness :
  Logger.Error Events.log "Panic in event handler: %v" "panic: boom" [] []
  = ([Logger.mkLine "ERROR" "EVENTS" "Panic in event handler: panic: boom"],
     "Panic in event handler: %v: panic: boom").
Proof.
  apply (Error_prints_expanded_returns_raw Events.log "Panic in event handler: "
           "panic: boom" []).
  reflexivity.
Defined.

End LoggerMore.

(** ** The task server as [main] builds it *)

Section MainMore.

(** [main] hands [NewServer] the configured password where the user name
    is expected and the user name where the password is expected: the
    server's Redis options carry them swapped, and are the configured
    credentials only when the two coincide. Address and database are
    passed on as configured. *)
Theorem main_task_server_credentials (cfg : Config.RedisConfig)
    (taskHandler : TaskServer.TaskHandler) (logger : Logger.Logger) :
  let opt := Asynq.redis (TaskServer.server (Main.taskServer cfg taskHandler logger)) in
  Asynq.Addr opt = Config.Addr cfg
  ∧ Asynq.DB opt = Config.DB cfg
  ∧ Asynq.Username opt = Config.Password cfg
  ∧ Asynq.Password opt = Config.Username cfg
  ∧ ((Asynq.Username opt = Config.Username cfg
      ∧ Asynq.Password opt = Config.Password cfg)
     ↔ Config.Username cfg = Config.Password cfg).
Proof.
  cbn. repeat split; try done; by intros [? ?].
Qed.

End MainMore.

(** ** The scheduler: registrations one after another *)

Section SchedulerMore.
Import TaskScheduler.
Context `{Cron}.

Lemma RegisterCustomTask_cases (s : Scheduler) (q : Request)
    (out : list Logger.Line) :
  (parses (reqSpec q) = true
   ∧ registrationError (reqSpec q) = None
   ∧ RegisterCustomTask s (reqSpec q) (reqType q) (reqPayload q) (reqOpts q) out
     = (mkScheduler
          (Asynq.mkScheduler
             (Asynq.entries (scheduler s)
              ++ [filed s (Asynq.minted (scheduler s)) q])
             (Asynq.uuid (scheduler s))
             (S (Asynq.minted (scheduler s))))
          (logger s),
        Logger.Info (logger s) "registered custom task %s %s %s"
          [reqType q; reqSpec q;
           Asynq.uuid (scheduler s) (Asynq.minted (scheduler s))] out,
        None))
  ∨ (parses (reqSpec q) = false
     ∧ RegisterCustomTask s (reqSpec q) (reqType q) (reqPayload q) (reqOpts q) out
       = (s, out, registrationError (reqSpec q))).
Proof.
  unfold RegisterCustomTask, Asynq.Register, parses, registrationError, filed.
  destruct (ParseStandard (reqSpec q)) as [schedule|e].
  - left. done.
  - right. destruct s. cbn. by rewrite append_empty_r.
Qed.

(** A registration that fails leaves the scheduler and the output as they
    were, so the calls around it are not disturbed: after a series of
    calls the scheduler holds, behind its earlier entries, one entry for
    each request whose spec parses, in the order of the calls and under
    identifiers drawn one after another; one line has been printed for
    each of them; and the calls returned [nil] for these and the wrapped
    parser error for the others. *)
Theorem RegisterCustomTasks_files_parsable (reqs : list Request) :
  ∀ (s : Scheduler) (out : list Logger.Line),
  Asynq.entries (scheduler (RegisterCustomTasks reqs s out).1.1)
  = Asynq.entries (scheduler s)
    ++ zip_with (filed s)
         (seq (Asynq.minted (scheduler s))
              (length (filter (λ q, parses (reqSpec q) = true) reqs)))
         (filter (λ q, parses (reqSpec q) = true) reqs)
  ∧ Asynq.minted (scheduler (RegisterCustomTasks reqs s out).1.1)
    = (Asynq.minted (scheduler s)
       + length (filter (λ q, parses (reqSpec q) = true) reqs))%nat
  ∧ Asynq.uuid (scheduler (RegisterCustomTasks reqs s out).1.1)
    = Asynq.uuid (scheduler s)
  ∧ logger (RegisterCustomTasks reqs s out).1.1 = logger s
  ∧ length (RegisterCustomTasks reqs s out).1.2
    = (length out + length (filter (λ q, parses (reqSpec q) = true) reqs))%nat
  ∧ out `prefix_of` (RegisterCustomTasks reqs s out).1.2
  ∧ (RegisterCustomTasks reqs s out).2
    = (λ q, registrationError (reqSpec q)) <$> reqs.
Proof.
  induction reqs as [|q reqs IH]; intros s out.
  - cbn. rewrite app_nil_r, !Nat.add_0_r. done.
  - cbn [RegisterCustomTasks]. rewrite filter_cons.
    destruct (RegisterCustomTask_cases s q out)
      as [(Hp & He & ->)|(Hp & ->)]; rewrite Hp.
    + match goal with
      | |- context [RegisterCustomTasks reqs ?s1 ?out1] =>
          specialize (IH s1 out1);
          destruct (RegisterCustomTasks reqs s1 out1) as [[s2 out2] es]
      end.
      cbn [fst snd scheduler logger Asynq.entries Asynq.minted Asynq.uuid]
        in IH |- *.
      destruct IH as (Hent & Hmint & Huuid & Hlog & Hlen & Hpre & Herr).
      rewrite decide_True by done. cbn [length seq zip_with fmap list_fmap].
      rewrite Hent, Hmint, Huuid, Hlog, Hlen, Herr, He.
      unfold Logger.Info in Hpre |- *. rewrite length_app.
      rewrite <- app_assoc. cbn [app length].
      repeat split; try done; try lia.
      etrans; [|exact Hpre]. by eexists.
    + specialize (IH s out).
      destruct (RegisterCustomTasks reqs s out) as [[s2 out2] es].
      cbn [fst snd] in IH |- *.
      destruct IH as (Hent & Hmint & Huuid & Hlog & Hlen & Hpre & Herr).
      rewrite decide_False by done.
      rewrite Hent, Hmint, Huuid, Hlog, Hlen, Herr.
      repeat split; done.
Qed.

Lemma RegisterCustomTasks_sample :
  let reqs := [mkRequest "@hourly" "queue:config" [] [];
               mkRequest "* * *" "queue:config" [] [];
               mkRequest "@daily" "queue:config" [] []] in
  let r := @RegisterCustomTasks descriptorsOnly reqs sampleScheduler [] in
  (Asynq.entryID <$> Asynq.entries (scheduler r.1.1),
   Asynq.cronspec <$> Asynq.entries (scheduler r.1.1))
  = (["entry-0"; "entry-1"], ["@hourly"; "@daily"])
  ∧ r.2 = [None;
           Some "failed to register custom task: unrecognized descriptor: * * *";
           None].
Proof. split; vm_compute; reflexivity. Qed.

End SchedulerMore.

(** ** The configuration read from the environment *)

Section ConfigMore.
Import Strconv Config.

Lemma digit_pretty_N_char (d : N) :
  (d < 10)%N → digit (pretty_N_char d) = Some (Z.of_N d).
Proof.
  intros Hd.
  assert (d = 0 ∨ d = 1 ∨ d = 2 ∨ d = 3 ∨ d = 4 ∨ d = 5 ∨ d = 6 ∨ d = 7
          ∨ d = 8 ∨ d = 9)%N as Hcases by lia.
  repeat (destruct Hcases as [->|Hcases]; [reflexivity|]). by subst.
Qed.

(** Reading back the digits printed for [x] gives [x]. *)
Lemma digits_pretty_N_go (x : N) : ∀ s,
  digits (pretty_N_go x s) 0 = digits s (Z.of_N x).
Proof.
  induction (N.lt_wf_0 x) as [x _ IH]; intros s.
  destruct (decide (x = 0%N)) as [->|Hx]; [by rewrite pretty_N_go_0|].
  rewrite pretty_N_go_step by lia.
  rewrite IH by (apply N.div_lt; lia).
  cbn [digits]. rewrite digit_pretty_N_char by (apply N.mod_lt; lia).
  f_equal. pose proof (N.div_mod x 10 ltac:(done)) as Hdm. lia.
Qed.

(** What is printed for a positive number starts with a digit. *)
Lemma pretty_N_go_head (x : N) : ∀ s,
  (0 < x)%N →
  ∃ d tl, (d < 10)%N ∧ pretty_N_go x s = String (pretty_N_char d) tl.
Proof.
  induction (N.lt_wf_0 x) as [x _ IH]; intros s Hx.
  rewrite pretty_N_go_step by done.
  destruct (decide (x `div` 10 = 0)%N) as [->|Hq].
  - rewrite pretty_N_go_0. exists (x `mod` 10)%N, s.
    split; [apply N.mod_lt; lia | done].
  - apply IH; [apply N.div_lt; lia | by apply N.neq_0_lt_0].
Qed.

Lemma pretty_N_char_not_sign (d : N) :
  Ascii.eqb (pretty_N_char d) "-"%char = false
  ∧ Ascii.eqb (pretty_N_char d) "+"%char = false.
Proof. unfold pretty_N_char. by repeat case_match. Qed.

Lemma magnitude_pretty_positive (neg : bool) (p : positive) :
  magnitude neg (pretty (N.pos p))
  = let v := if neg then Z.neg p else Z.pos p in
    if (- 2 ^ 63 <=? v) && (v <? 2 ^ 63) then Some v else None.
Proof.
  unfold pretty, pretty_N. rewrite decide_False by done.
  destruct (pretty_N_go_head (N.pos p) "" ltac:(lia)) as (d & tl & _ & Hhead).
  unfold magnitude. rewrite digits_pretty_N_go, Hhead. cbn [digits].
  by destruct neg.
Qed.

(** [Atoi] reads back the decimal rendering of every [int], and refuses
    the rendering of a number that does not fit. *)
Lemma Atoi_pretty (n : Z) :
  Atoi (pretty n)
  = if (- 2 ^ 63 <=? n) && (n <? 2 ^ 63) then Some n else None.
Proof.
  destruct n as [|p|p].
  - reflexivity.
  - change (pretty (Z.pos p)) with (pretty (N.pos p)).
    pose proof (magnitude_pretty_positive false p) as Hm.
    unfold pretty, pretty_N in Hm |- *. rewrite decide_False in Hm |- * by done.
    destruct (pretty_N_go_head (N.pos p) "" ltac:(lia)) as (d & tl & _ & Hhead).
    rewrite Hhead in Hm |- *. unfold Atoi.
    destruct (pretty_N_char_not_sign d) as [-> ->]. exact Hm.
  - change (pretty (Z.neg p)) with (String "-" (pretty (N.pos p))).
    unfold Atoi. cbn [Ascii.eqb Bool.eqb]. apply (magnitude_pretty_positive true).
Qed.

Lemma getEnvAsInt_decimal_aux (env : gmap string string) (key : string)
    (defaultValue n : Z) :
  (env !! key = Some (pretty n) → - 2 ^ 63 ≤ n < 2 ^ 63 →
   getEnvAsInt env key defaultValue = n)
  ∧ (env !! key = Some (pretty n) → ¬ (- 2 ^ 63 ≤ n < 2 ^ 63) →
     getEnvAsInt env key defaultValue = defaultValue).
Proof.
  unfold getEnvAsInt. split.
  - intros -> Hn. rewrite Atoi_pretty.
    by rewrite (proj2 (andb_true_iff _ _)) by (split; lia).
  - intros -> Hn. rewrite Atoi_pretty.
    destruct (andb _ _) eqn:Hb; [|done].
    apply andb_true_iff in Hb as [? ?]. lia.
Qed.

(** A variable that holds the decimal rendering of an [int] is read as
    that number; one that is unset, or holds the rendering of a number that
    does not fit an [int], gives the default. *)
Theorem getEnvAsInt_decimal (env : gmap string string) (key : string)
    (defaultValue n : Z) :
  (env !! key = Some (pretty n) → - 2 ^ 63 ≤ n < 2 ^ 63 →
   getEnvAsInt env key defaultValue = n)
  ∧ (env !! key = Some (pretty n) → ¬ (- 2 ^ 63 ≤ n < 2 ^ 63) →
     getEnvAsInt env key defaultValue = defaultValue)
  ∧ (env !! key = None → getEnvAsInt env key defaultValue = defaultValue).
Proof.
  destruct (getEnvAsInt_decimal_aux env key defaultValue n) as [Hin Hout].
  repeat split; [exact Hin | exact Hout |].
  unfold getEnvAsInt. by intros ->.
Qed.

Lemma getEnvAsInt_decimal_witness :
  getEnvAsInt {[ "REDIS_PORT" := pretty 6380 ]} "REDIS_PORT" 6379 = 6380
  ∧ getEnvAsInt {[ "REDIS_PORT" := pretty (2 ^ 63) ]} "REDIS_PORT" 6379 = 6379
  ∧ getEnvAsInt ∅ "REDIS_PORT" 6379 = 6379.
Proof.
  split; [|split].
  - apply (proj1 (getEnvAsInt_decimal {[ "REDIS_PORT" := pretty 6380 ]}
                    "REDIS_PORT" 6379 6380)); [reflexivity | lia].
  - apply (proj1 (proj2 (getEnvAsInt_decimal
                           {[ "REDIS_PORT" := pretty (2 ^ 63) ]}
                           "REDIS_PORT" 6379 (2 ^ 63)))); [reflexivity | lia].
  - apply (proj2 (proj2 (getEnvAsInt_decimal ∅ "REDIS_PORT" 6379 0))).
    reflexivity.
Defined.

(** The address the task server of [main] connects to is the configured
    host and port joined by a colon: a port given in decimal is passed on
    as written, and a port that is unset gives 6379; the host is
    [REDIS_HOST], or localhost when that is unset. The number of workers
    is 10 whatever the environment says. *)
Theorem main_task_server_address (env : gmap string string)
    (taskHandler : TaskServer.TaskHandler) (logger : Logger.Logger) :
  let srv := TaskServer.server (Main.taskServer (LoadRedis env) taskHandler logger) in
  (∀ n, env !! "REDIS_PORT" = Some (pretty n) → 0 ≤ n < 2 ^ 63 →
        Asynq.Addr (Asynq.redis srv)
        = getEnv env "REDIS_HOST" "localhost" +:+ ":" +:+ pretty n)
  ∧ (env !! "REDIS_PORT" = None →
     Asynq.Addr (Asynq.redis srv)
     = getEnv env "REDIS_HOST" "localhost" +:+ ":6379")
  ∧ (env !! "REDIS_HOST" = None → env !! "REDIS_PORT" = None →
     Asynq.Addr (Asynq.redis srv) = "localhost:6379")
  ∧ Asynq.Concurrency (Asynq.cfg srv) = 10.
Proof.
  cbn zeta. unfold Main.taskServer, LoadRedis.
  cbn [TaskServer.NewServer TaskServer.server Asynq.redis Asynq.cfg Asynq.Addr
       Asynq.Concurrency Addr].
  assert (Haddr : ∀ host port, Sprintf "%s:%d" [host; port] = host +:+ ":" +:+ port).
  { intros host port. cbn. by rewrite append_empty_r. }
  rewrite Haddr. repeat split.
  - intros n Hport Hn.
    by rewrite (proj1 (getEnvAsInt_decimal_aux env "REDIS_PORT" 6379 n) Hport)
      by lia.
  - intros Hport. unfold getEnvAsInt. by rewrite Hport.
  - intros Hhost Hport. unfold getEnv, getEnvAsInt. by rewrite Hhost, Hport.
Qed.

Lemma main_task_server_address_witness :
  Asynq.Addr (Asynq.redis (TaskServer.server
    (Main.taskServer
       (LoadRedis {[ "REDIS_HOST" := "cache.internal"; "REDIS_PORT" := pretty 6380 ]})
       (TaskServer.mkTaskHandler (Logger.New "task_handler"))
       (Logger.New "main"))))
  = "cache.internal:6380".
Proof.
  exact (proj1 (main_task_server_address
                  {[ "REDIS_HOST" := "cache.internal"; "REDIS_PORT" := pretty 6380 ]}
                  (TaskServer.mkTaskHandler (Logger.New "task_handler"))
                  (Logger.New "main"))
           6380 eq_refl ltac:(lia)).
Defined.

End ConfigMore.

(** ** The event bus: what the handlers receive *)

Section EventsDelivery.
Import Events.
Implicit Types (bus : EventBus) (rt : Runtime) (h : EventHandler)
  (event : string) (payload : any).

Lemma step_calls rt rt' :
  step rt rt' →
  calls rt' ++ pendingCalls rt' ≡ₚ calls rt ++ pendingCalls rt
  ∧ calls rt `prefix_of` calls rt'.
Proof.
  intros [i rt0 rt1 Hrun].
  destruct (run_goroutine_Some _ _ _ Hrun) as (_ & h & payload & Hi & ->).
  split; [|by eexists].
  pose proof (lookup_lt_Some _ _ _ Hi) as Hlt.
  unfold pendingCalls, ran. cbn [calls goroutines].
  rewrite insert_take_drop by done.
  rewrite <- (take_drop_middle (goroutines rt0) i _ Hi) at 3.
  rewrite !filter_app, !filter_cons.
  rewrite decide_False by (rewrite isReady_ran_state; done).
  rewrite decide_True by done.
  rewrite !fmap_app, fmap_cons. cbn [handler data].
  rewrite <- !app_assoc. f_equiv. cbn [app].
  by rewrite Permutation_middle.
Qed.

Lemma quiescent_pendingCalls rt : quiescent rt → pendingCalls rt = [].
Proof.
  unfold quiescent, pendingCalls. induction (goroutines rt) as [|g gs IH]; [done|].
  intros Hq. rewrite filter_cons, decide_False.
  - apply IH. intros g' Hg'. apply Hq. by right.
  - rewrite Hq; [done | by left].
Qed.

Lemma steps_calls rt rt' :
  steps rt rt' →
  calls rt' ++ pendingCalls rt' ≡ₚ calls rt ++ pendingCalls rt
  ∧ calls rt `prefix_of` calls rt'.
Proof.
  induction 1 as [rt|rt1 rt2 rt3 Hs _ [IHp IHpre]]; [done|].
  destruct (step_calls _ _ Hs) as [Hp Hpre].
  split; [by rewrite IHp | by etrans].
Qed.

(** A handler receives what was emitted: when the process has nothing left
    to run before an [Emit], then at the end of every run that follows it
    the invocations made since are, in some order, one per handler
    registered for the event, each with the emitted payload; earlier
    invocations stay in front. *)
Theorem Emit_delivers_payload event payload bus rt rt' :
  quiescent rt →
  steps (Emit event payload bus rt).1 rt' →
  quiescent rt' →
  ∃ made, calls rt' = calls rt ++ made
          ∧ made ≡ₚ (λ h, (fn h, payload)) <$> registered bus event.
Proof.
  intros Hq Hsteps Hq'.
  destruct (steps_calls _ _ Hsteps) as [Hp [made Hmade]].
  destruct (Emit_goroutines event payload bus rt) as (Hg & Hc & _).
  rewrite Hc in Hmade. exists made. split; [done|].
  rewrite (quiescent_pendingCalls rt' Hq'), app_nil_r, Hmade, Hc in Hp.
  apply (inj (app (calls rt))) in Hp. rewrite Hp.
  unfold pendingCalls. rewrite Hg, filter_app.
  pose proof (quiescent_pendingCalls rt Hq) as Hnone. unfold pendingCalls in Hnone.
  apply fmap_nil_inv in Hnone. rewrite Hnone. cbn [app].
  clear. induction (registered bus event) as [|h hs IH]; [done|].
  rewrite fmap_cons, filter_cons, decide_True by done.
  rewrite !fmap_cons. cbn [handler data]. by rewrite IH.
Qed.

Lemma Emit_delivers_payload_witness :
  let first := mkHandler 1 (λ _, Panics (Str "boom")) in
  let second := mkHandler 2 (λ _, Returns) in
  let bus := (On "x.e" second (On "x.e" first NewEventBus boot).1 boot).1 in
  let rtE := (Emit "x.e" (Some (Int 7)) bus boot).1 in
  ∃ made, calls (ran 0 first (Some (Int 7)) (ran 1 second (Some (Int 7)) rtE))
          = calls boot ++ made
          ∧ made ≡ₚ (λ h, (fn h, Some (Int 7))) <$> registered bus "x.e".
Proof.
  intros first second bus rtE.
  apply (Emit_delivers_payload "x.e" (Some (Int 7)) bus boot
           (ran 0 first (Some (Int 7)) (ran 1 second (Some (Int 7)) rtE))).
  - intros g Hg. by apply elem_of_nil in Hg.
  - eapply steps_step; [apply (step_run 1); reflexivity|].
    eapply steps_step; [apply (step_run 0); reflexivity|].
    apply steps_refl.
  - intros g Hg. vm_compute in Hg.
    apply elem_of_cons in Hg as [->|Hg]; [reflexivity|].
    apply elem_of_cons in Hg as [->|Hg]; [reflexivity|].
    by apply elem_of_nil in Hg.
Defined.

End EventsDelivery.
